(** * A Wordle clone in React: the game logic of [src/App.jsx]

    The component tree of the application keeps five pieces of state
    ([word], [guessedWords], [currentTry], [isGameOver], [currentGuess]) and
    changes them from three places: the [keydown] listener of [GameField],
    the "Reset Game" button and the resolution of the start-up fetch.  This
    file embeds those handlers as functions on a record of the five state
    cells, together with the pure tile-colouring function and the part of
    the render that the properties below talk about. *)

From Stdlib Require Import NArith String Ascii.
From stdpp Require Import base numbers option list.

Local Open Scope N_scope.

(** ** JavaScript strings and arrays *)

Module Js.

(** A JavaScript string is a sequence of UTF-16 code units. *)
Abbreviation codeUnit := N (only parsing).
Abbreviation jsstring := (list N) (only parsing).

(** String literals of the source, written with Rocq's string notation. *)
Definition lit (s : string) : jsstring :=
  map N_of_ascii (list_ascii_of_string s).

(** [s.length] *)
Definition len (s : jsstring) : nat := length s.

(** [s[i]]: the one-unit string at index [i], or [undefined] ([None]). *)
Definition at_index (s : jsstring) (i : nat) : option jsstring :=
  (λ c, [c]) <$> s !! i.

(** [a === b] where [a] is a string and [b] a string or [undefined]. *)
Definition strictEq (a : jsstring) (b : option jsstring) : bool :=
  match b with
  | Some b' => bool_decide (a = b')
  | None => false
  end.

(** [String.prototype.toUpperCase], one code unit at a time.

    ECMAScript upper-cases with the locale-independent full case mapping of
    Unicode (UnicodeData plus the unconditional entries of SpecialCasing),
    so one character may become several.  The table below is that mapping
    on Basic Latin, on the Latin-1 Supplement and on the Latin ligatures
    U+FB00..U+FB06.  Every other code unit is left as it is; that is what
    the mapping does for uncased characters, while the cased letters of
    other blocks and of the supplementary planes are outside this table.
    The proofs below depend on the table in two places only: upper-casing
    twice is upper-casing once, and the row of U+FB06. *)
Definition upperCodeUnit (c : codeUnit) : jsstring :=
  if (0x61 <=? c) && (c <=? 0x7A) then [c - 0x20]       (* a..z *)
  else if c =? 0xB5 then [0x39C]                         (* micro sign *)
  else if c =? 0xDF then [0x53; 0x53]                    (* sharp s -> SS *)
  else if c =? 0xF7 then [c]                             (* division sign *)
  else if (0xE0 <=? c) && (c <=? 0xFE) then [c - 0x20]  (* a-grave..thorn *)
  else if c =? 0xFF then [0x178]                         (* y-diaeresis *)
  else if c =? 0xFB00 then [0x46; 0x46]                  (* ff  -> FF *)
  else if c =? 0xFB01 then [0x46; 0x49]                  (* fi  -> FI *)
  else if c =? 0xFB02 then [0x46; 0x4C]                  (* fl  -> FL *)
  else if c =? 0xFB03 then [0x46; 0x46; 0x49]            (* ffi -> FFI *)
  else if c =? 0xFB04 then [0x46; 0x46; 0x4C]            (* ffl -> FFL *)
  else if c =? 0xFB05 then [0x53; 0x54]                  (* long s t -> ST *)
  else if c =? 0xFB06 then [0x53; 0x54]                  (* st  -> ST *)
  else [c].

Definition toUpperCase (s : jsstring) : jsstring :=
  flat_map upperCodeUnit s.

(** [s.startsWith(p)] *)
Fixpoint startsWith (s p : jsstring) {struct p} : bool :=
  match p, s with
  | [], _ => true
  | _ :: _, [] => false
  | a :: p', b :: s' => (a =? b) && startsWith s' p'
  end.

(** [s.includes(p)]: [p] occurs in [s] as a contiguous run of code units. *)
Fixpoint includes (s p : jsstring) : bool :=
  startsWith s p ||
  match s with
  | [] => false
  | _ :: s' => includes s' p
  end.

(** [s.slice(0, -1)]: the end index is [max (length + (-1)) 0]. *)
Definition slice_0_m1 (s : jsstring) : jsstring :=
  take (length s - 1)%nat s.

(** [s.padEnd(n, pad)]: [s] itself when it is long enough or when [pad] is
    empty, else [s] followed by [pad] repeated and cut to the missing
    length. *)
Fixpoint cycleTo (fuel : nat) (pad : jsstring) (n : nat) : jsstring :=
  match fuel with
  | O => []
  | S fuel' => take n pad ++ cycleTo fuel' pad (n - length pad)%nat
  end.

Definition padEnd (s : jsstring) (n : nat) (pad : jsstring) : jsstring :=
  if (n <=? length s)%nat then s
  else match pad with
       | [] => s
       | _ => s ++ cycleTo (n - length s) pad (n - length s)%nat
       end.

(** An array of strings; [None] is [undefined], which is also what a hole
    reads as once the array has been copied with the spread syntax. *)
Abbreviation jsarray := (list (option (list N))) (only parsing).

(** [a[i] = v] on a fresh copy of [a]: JavaScript grows the array when [i]
    is past its end, leaving holes in between. *)
Definition arraySet (a : jsarray) (i : nat) (v : jsstring) : jsarray :=
  if (i <? length a)%nat then <[i := Some v]> a
  else a ++ replicate (i - length a) None ++ [Some v].

(** [a.includes(v)] for a string [v]. *)
Definition arrayIncludes (a : jsarray) (v : jsstring) : bool :=
  existsb (λ x, bool_decide (x = Some v)) a.

End Js.

Import Js.

(** ** Constants of the module *)

Definition MAX_TRIES : nat := 6.
Definition WORD_LENGTH : nat := 5.
Definition INITIAL_GUESSES : jsarray := replicate MAX_TRIES (Some []).
Definition AVAILABLE_LETTERS : jsstring := lit "ABCDEFGHIJKLMNOPQRSTUVWXYZ".

(** ** Tile colouring *)

Inductive TileStatus := green | yellow | grey | white.

Definition calculateTileStatus
    (letter : jsstring) (position : nat) (word : jsstring) : TileStatus :=
  match letter with
  | [] => white
  | _ =>
    let upperLetter := toUpperCase letter in
    let upperWord := toUpperCase word in
    if strictEq upperLetter (at_index upperWord position) then green
    else if includes upperWord upperLetter then yellow
    else grey
  end.

(** ** Application state

    The five [useState] cells of [App].  [currentTry] is a JavaScript number
    that only ever holds a small natural number. *)

Record AppState := mkApp {
  word : jsstring;
  guessedWords : jsarray;
  currentTry : nat;
  isGameOver : bool;
  currentGuess : jsstring
}.

Definition setWord (w : jsstring) (s : AppState) : AppState :=
  mkApp w (guessedWords s) (currentTry s) (isGameOver s) (currentGuess s).
Definition setGuessedWords (f : jsarray -> jsarray) (s : AppState) : AppState :=
  mkApp (word s) (f (guessedWords s)) (currentTry s) (isGameOver s) (currentGuess s).
Definition setCurrentTry (f : nat -> nat) (s : AppState) : AppState :=
  mkApp (word s) (guessedWords s) (f (currentTry s)) (isGameOver s) (currentGuess s).
Definition setIsGameOver (b : bool) (s : AppState) : AppState :=
  mkApp (word s) (guessedWords s) (currentTry s) b (currentGuess s).
Definition setCurrentGuess (f : jsstring -> jsstring) (s : AppState) : AppState :=
  mkApp (word s) (guessedWords s) (currentTry s) (isGameOver s) (f (currentGuess s)).

(** A handler runs to completion inside one browser event; the state updates
    it queues are applied together before the next event is delivered.  A
    handler is therefore a function from the state to the next state and the
    list of [alert] messages it showed, in order. *)
Definition Handler := AppState -> AppState * list jsstring.

Definition ret (s : AppState) : AppState * list jsstring := (s, []).
Definition alert (msg : jsstring) (s : AppState) : AppState * list jsstring :=
  (s, [msg]).

(** ** [GameField] *)

Definition handleSubmitGuess : Handler := λ s,
  if negb (len (currentGuess s) =? WORD_LENGTH)%nat then
    alert (lit "Must be a 5-letter word!") s
  else
    let submittedWord := toUpperCase (currentGuess s) in
    let secretWord := toUpperCase (word s) in
    let s1 := setGuessedWords
                (λ prev, arraySet prev (currentTry s) submittedWord) s in
    if bool_decide (submittedWord = secretWord) then
      ret (setIsGameOver true s1)
    else if (MAX_TRIES - 1 <=? currentTry s)%nat then
      alert (lit "Game Over! The word was: " ++ word s) (setIsGameOver true s1)
    else
      ret (setCurrentTry (λ prev, prev + 1)%nat
             (setCurrentGuess (λ _, []) s1)).

(** The [keydown] listener; [eventKey] is [event.key]. *)
Definition handleKeyPress (eventKey : jsstring) : Handler := λ s,
  let key := toUpperCase eventKey in
  if bool_decide (key = lit "ENTER") then handleSubmitGuess s
  else if bool_decide (key = lit "BACKSPACE") || bool_decide (key = lit "DELETE")
  then ret (setCurrentGuess slice_0_m1 s)
  else if includes AVAILABLE_LETTERS key
          && (len (currentGuess s) <? WORD_LENGTH)%nat
  then ret (setCurrentGuess (λ prev, prev ++ key) s)
  else ret s.

(** [fullGrid]: the submitted rows with the row being typed put in place. *)
Definition fullGrid (s : AppState) : jsarray :=
  arraySet (guessedWords s) (currentTry s)
           (padEnd (currentGuess s) WORD_LENGTH []).

(** What [Tile] is given, and what it shows. *)
Record Tile := mkTile { tileLetter : jsstring; tileStatus : TileStatus }.

Definition tileText (t : Tile) : jsstring := toUpperCase (tileLetter t).

(** One row of the board.  [guess[letterIndex]] on an [undefined] row throws
    a [TypeError]; this is [None]. *)
Definition renderRow (s : AppState) (guessIndex : nat)
    (guess : option jsstring) : option (list Tile) :=
  g ← guess;
  Some (map (λ letterIndex,
          let letter := default [] (at_index g letterIndex) in
          let status :=
            if (guessIndex <? currentTry s)%nat
               || (isGameOver s && (guessIndex =? currentTry s)%nat)
            then calculateTileStatus letter letterIndex (word s)
            else white in
          mkTile letter status)
        (seq 0 WORD_LENGTH)).

Definition renderGameField (s : AppState) : option (list (list Tile)) :=
  mapM (λ '(guessIndex, guess), renderRow s guessIndex guess)
       (imap pair (fullGrid s)).

(** ** [App] *)

Definition initialState : AppState :=
  mkApp [] INITIAL_GUESSES 0 false [].

(** The start-up fetch.  [Some solution] is a response whose JSON carries the
    string [solution]; [None] is every failure the [catch] clause receives
    (network error, non-OK status, malformed body). *)
Definition fetchWord (response : option jsstring) : Handler := λ s,
  match response with
  | Some solution => ret (setWord (toUpperCase solution) s)
  | None =>
    alert (lit "Error fetching word, using fallback word!")
          (setWord (lit "HELLO") s)
  end.

Definition revealWord : Handler := λ s,
  alert (lit "The word is: " ++ word s) s.

Definition resetGame : Handler := λ s,
  ret (setCurrentGuess (λ _, [])
        (setIsGameOver false
          (setCurrentTry (λ _, 0%nat)
            (setGuessedWords (λ _, INITIAL_GUESSES) s)))).

(** The paragraph under the board, present only once the game is over. *)
Definition gameStatus (s : AppState) : option jsstring :=
  if isGameOver s then
    Some (if arrayIncludes (guessedWords s) (word s)
          then lit "You Win!" else lit "You Lost!")
  else None.

(** ** Events

    While [word] is empty [App] renders the loading text only: no board, no
    listener, no button.  After that the listener is attached exactly while
    the game is not over, "Reveal Word" is disabled once it is over, and
    "Reset Game" is always enabled. *)

Inductive Event :=
| KeyDown (key : jsstring)
| ClickReveal
| ClickReset.

Definition dispatch (e : Event) : Handler := λ s,
  match word s with
  | [] => ret s
  | _ =>
    match e with
    | KeyDown key => if isGameOver s then ret s else handleKeyPress key s
    | ClickReveal => if isGameOver s then ret s else revealWord s
    | ClickReset => resetGame s
    end
  end.

Definition step (e : Event) (s : AppState) : AppState := fst (dispatch e s).

Definition run (es : list Event) (s : AppState) : AppState :=
  foldl (λ s e, step e s) s es.

(** The state once the fetch has settled with [response]. *)
Definition mount (response : option jsstring) : AppState :=
  fst (fetchWord response initialState).

(** The states a session can be in: the one before the fetch settles, and
    whatever user events lead to afterwards. *)
Inductive reachable : AppState -> Prop :=
| reach_loading : reachable initialState
| reach_mount response : reachable (mount response)
| reach_step e s : reachable s -> reachable (step e s).

(** Typing the characters of [w], one key press each. *)
Definition typeKeys (w : jsstring) : list Event :=
  map (λ c, KeyDown [c]) w.
Definition Enter : Event := KeyDown (lit "Enter").
Definition Backspace : Event := KeyDown (lit "Backspace").

(** ** Vocabulary of the properties *)

(** The upper-cased letter is the character of the upper-cased word at the
    position. *)
Definition matchesAt (letter : jsstring) (position : nat) (w : jsstring) : Prop :=
  at_index (toUpperCase w) position = Some (toUpperCase letter).

(** The upper-cased letter occurs somewhere in the upper-cased word. *)
Definition occursIn (letter w : jsstring) : Prop :=
  ∃ pre post, toUpperCase w = pre ++ toUpperCase letter ++ post.

(** What a submission of the right length does to the list of guesses: the
    upper-cased guess is at the current index, the other rows are as they
    were, and an index inside the list leaves its length alone. *)
Definition writesGuess (s s' : AppState) : Prop :=
  guessedWords s' !! currentTry s = Some (Some (toUpperCase (currentGuess s))) ∧
  (∀ j, j ≠ currentTry s → (j < length (guessedWords s))%nat →
        guessedWords s' !! j = guessedWords s !! j) ∧
  ((currentTry s < length (guessedWords s))%nat →
        length (guessedWords s') = length (guessedWords s)).

Record gameInv (s : AppState) : Prop := mkInv {
  inv_length : length (guessedWords s) = 6%nat;
  inv_try : (currentTry s < 6)%nat;
  inv_word : toUpperCase (word s) = word s;
  inv_loading : word s = [] → isGameOver s = false ∧ currentTry s = 0%nat;
  inv_past : ∀ i, (i < currentTry s)%nat →
    ∃ g, guessedWords s !! i = Some (Some g) ∧ g ≠ word s;
  inv_future : ∀ i, (currentTry s < i)%nat → (i < 6)%nat →
    guessedWords s !! i = Some (Some []);
  inv_playing : isGameOver s = false →
    guessedWords s !! currentTry s = Some (Some []);
  inv_over : isGameOver s = true →
    word s ≠ [] ∧
    guessedWords s !! currentTry s = Some (Some (toUpperCase (currentGuess s))) ∧
    (toUpperCase (currentGuess s) = word s
     ∨ currentTry s = 5%nat ∧ toUpperCase (currentGuess s) ≠ word s)
}.

Definition isUpperLetter (c : codeUnit) : bool := (0x41 <=? c) && (c <=? 0x5A).

(** At most five code units, each one of [A]..[Z]. *)
Definition guessOK (g : jsstring) : Prop :=
  (len g ≤ WORD_LENGTH)%nat ∧ Forall (λ c, isUpperLetter c = true) g.

(** A key whose upper-case form passes the alphabet test only when that form
    is one code unit long. *)
Definition plainKey (key : jsstring) : Prop :=
  includes AVAILABLE_LETTERS (toUpperCase key) = true →
  len (toUpperCase key) = 1%nat.

Definition plainEvent (e : Event) : Prop :=
  match e with
  | KeyDown key => plainKey key
  | _ => True
  end.

(** ** Sample sessions *)

Definition fourLetters : AppState :=
  mkApp (lit "CRANE") INITIAL_GUESSES 0 false (lit "CRAN").

Definition craneAt (i : nat) : AppState :=
  mkApp (lit "CRANE") INITIAL_GUESSES i false (lit "crane").

Definition lastTry : AppState :=
  mkApp (lit "CRANE") INITIAL_GUESSES 5 false (lit "TRACE").

Definition firstTry : AppState :=
  mkApp (lit "CRANE") INITIAL_GUESSES 0 false (lit "TRACE").

Definition afterOneGuess : AppState :=
  run (typeKeys (lit "trace") ++ [Enter]) (mount (Some (lit "crane"))).

Definition wonAtFirstTry : AppState :=
  run (typeKeys (lit "crane") ++ [Enter]) (mount (Some (lit "crane"))).

(** The key of a keyboard layout that produces the ligature U+FB06. *)
Definition ligature_st : jsstring := [0xFB06].

Definition fourTyped : AppState :=
  run (typeKeys (lit "abcd")) (mount (Some (lit "crane"))).

(** ** Keys, play-throughs and the board *)

(** [a]..[z] or [A]..[Z]: what the letter keys of a Latin keyboard send. *)
Definition isAsciiLetter (c : codeUnit) : bool :=
  isUpperLetter c || ((0x61 <=? c) && (c <=? 0x7A)).

Definition lettersOnly (g : jsstring) : Prop :=
  Forall (λ c, isUpperLetter c = true) g.

Definition letterKeys (w : jsstring) : Prop :=
  Forall (λ c, isAsciiLetter c = true) w.

(** The state [App] shows first once [word] is [w], and again after Reset. *)
Definition freshGame (w : jsstring) : AppState :=
  mkApp w INITIAL_GUESSES 0 false [].

(** Typing a guess and pressing Enter; doing so for a list of guesses. *)
Definition playGuess (g : jsstring) : list Event := typeKeys g ++ [Enter].

Definition playAll (gs : list jsstring) : list Event := flat_map playGuess gs.

(** Five letter keys that do not spell the secret word [w]. *)
Definition wrongGuess (w g : jsstring) : Prop :=
  len g = 5%nat ∧ letterKeys g ∧ toUpperCase g ≠ toUpperCase w.

(** The tile in row [i], column [j] of a rendered board. *)
Definition tileAt (grid : list (list Tile)) (i j : nat) : option Tile :=
  grid !! i ≫= (.!! j).

(** What the listener and the submission keep true of the typed text and of
    the submitted rows. *)
Record boardInv (s : AppState) : Prop := mkBoardInv {
  b_guess : lettersOnly (currentGuess s);
  b_over : isGameOver s = true → len (currentGuess s) = 5%nat;
  b_past : ∀ i g, (i < currentTry s)%nat →
    guessedWords s !! i = Some (Some g) → len g = 5%nat ∧ lettersOnly g
}.

(** The state after the wrong guesses [ws], fewer than six, have been
    played against the word [w]. *)
Definition afterWrong (w : jsstring) (ws : list jsstring) : AppState :=
  mkApp w ((Some ∘ toUpperCase <$> ws) ++ replicate (6 - length ws) (Some []))
        (length ws) false [].

Definition sixWrong : list jsstring :=
  [lit "trace"; lit "Crate"; lit "REACT"; lit "caret"; lit "carte"; lit "recta"].

Definition lostGame : AppState :=
  run (playAll sixWrong) (mount (Some (lit "crane"))).

(** The events of a session on an ordinary keyboard: letter keys, Enter,
    Backspace, Delete and the two buttons. *)
Definition standardEvent (e : Event) : Prop :=
  match e with
  | KeyDown key =>
      (∃ c, key = [c] ∧ isAsciiLetter c = true)
      ∨ key = lit "Enter" ∨ key = lit "Backspace" ∨ key = lit "Delete"
  | ClickReveal | ClickReset => True
  end.

(** Unfolds the state setters and reads the fields of the result. *)
Ltac simpl_state :=
  unfold setCurrentTry, setCurrentGuess, setGuessedWords, setIsGameOver,
         afterWrong;
  cbn [fst snd word guessedWords currentTry isGameOver currentGuess].

(** ** Facts about the string and array primitives *)

Section JsFacts.

Implicit Types (s p : jsstring) (a : jsarray).

Lemma startsWith_prefix s p :
  startsWith s p = true ↔ ∃ post, s = p ++ post.
Proof.
  revert s. induction p as [|c p IH]; intros s; simpl.
  - split; [intros _; by exists s | done].
  - destruct s as [|d s]; simpl.
    + split; [done | intros [post H]; discriminate].
    + rewrite andb_true_iff, N.eqb_eq, IH. split.
      * intros [-> [post ->]]. by exists post.
      * intros [post H]. injection H as -> ->. eauto.
Qed.

(** [includes] decides occurrence as a contiguous run. *)
Lemma includes_infix s p :
  includes s p = true ↔ ∃ pre post, s = pre ++ p ++ post.
Proof.
  induction s as [|d s IH].
  - cbn [includes]. rewrite orb_false_r, startsWith_prefix. split.
    + intros [post H]. exists [], post. exact H.
    + intros (pre & post & H). symmetry in H.
      apply app_eq_nil in H as [-> H]. by exists post.
  - cbn [includes]. rewrite orb_true_iff, startsWith_prefix, IH. split.
    + intros [[post H] | (pre & post & H)].
      * exists [], post. exact H.
      * exists (d :: pre), post. by rewrite H.
    + intros (pre & post & H). destruct pre as [|d' pre].
      * left. by exists post.
      * right. injection H as -> ->. by exists pre, post.
Qed.

Lemma includes_app_r s p : includes (s ++ p) p = true.
Proof. apply includes_infix. exists s, []. by rewrite app_nil_r. Qed.

Lemma strictEq_true s (o : option jsstring) :
  strictEq s o = true ↔ o = Some s.
Proof.
  destruct o as [t|]; simpl; [|done].
  rewrite bool_decide_eq_true. split; congruence.
Qed.

Lemma arraySet_lookup_eq a i v : arraySet a i v !! i = Some (Some v).
Proof.
  unfold arraySet. destruct (Nat.ltb_spec i (length a)).
  - by apply list_lookup_insert_eq.
  - rewrite lookup_app_r by lia.
    rewrite lookup_app_r by (rewrite length_replicate; lia).
    rewrite length_replicate. by replace (_ - _ - _)%nat with 0%nat by lia.
Qed.

Lemma arraySet_lookup_ne a i j v :
  j ≠ i → (j < length a)%nat → arraySet a i v !! j = a !! j.
Proof.
  intros Hne Hj. unfold arraySet. destruct (Nat.ltb_spec i (length a)).
  - by apply list_lookup_insert_ne.
  - by apply lookup_app_l.
Qed.

Lemma arraySet_length a i v :
  (i < length a)%nat → length (arraySet a i v) = length a.
Proof.
  intros Hi. unfold arraySet.
  destruct (Nat.ltb_spec i (length a)); [apply length_insert | lia].
Qed.

Lemma arrayIncludes_lookup a v :
  arrayIncludes a v = true ↔ ∃ i, a !! i = Some (Some v).
Proof.
  unfold arrayIncludes. rewrite existsb_exists. split.
  - intros (x & Hin & Hx). apply bool_decide_eq_true in Hx as ->.
    apply list_elem_of_In, list_elem_of_lookup in Hin. done.
  - intros [i Hi]. exists (Some v). split; [|by apply bool_decide_eq_true].
    apply list_elem_of_In, list_elem_of_lookup. eauto.
Qed.

(** Upper-casing is idempotent: every code unit the table produces is one
    it leaves alone. *)
Lemma upperCodeUnit_fixed (c d : codeUnit) :
  d ∈ upperCodeUnit c → upperCodeUnit d = [d].
Proof.
  unfold upperCodeUnit at 1.
  repeat match goal with
  | |- context [if ?b then _ else _] => destruct b eqn:?
  end;
  rewrite ?andb_true_iff, ?andb_false_iff, ?N.leb_le, ?N.leb_gt,
          ?N.eqb_eq, ?N.eqb_neq in *;
  intros Hd; repeat (apply elem_of_cons in Hd as [-> | Hd]);
  try (by apply elem_of_nil in Hd); try reflexivity.
  all: unfold upperCodeUnit;
    repeat match goal with
    | |- context [?x <=? ?y] =>
        destruct (N.leb_spec x y); cbn [andb]; try lia
    | |- context [?x =? ?y] =>
        destruct (N.eqb_spec x y); try lia
    end; try reflexivity; try lia.
Qed.

Lemma toUpperCase_idempotent s : toUpperCase (toUpperCase s) = toUpperCase s.
Proof.
  unfold toUpperCase. induction s as [|c s IH]; [done|].
  simpl. rewrite flat_map_app, IH. f_equal.
  assert (H : ∀ d, d ∈ upperCodeUnit c → upperCodeUnit d = [d])
    by (intros d; apply upperCodeUnit_fixed).
  induction (upperCodeUnit c) as [|d l IHl]; [done|].
  simpl. rewrite (H d) by (left). simpl. f_equal.
  apply IHl. intros d' Hd'. apply H. by right.
Qed.

Lemma toUpperCase_nil_inv s : toUpperCase s = [] → s = [].
Proof.
  destruct s as [|c s]; [done|]. unfold toUpperCase. simpl.
  intros H. apply app_eq_nil in H as [H _]. revert H.
  unfold upperCodeUnit.
  repeat match goal with
  | |- context [if ?b then _ else _] => destruct b
  end; discriminate.
Qed.

End JsFacts.

(** ** Tile status *)

(** C1.  For every letter, position and secret word: the empty letter is
    white whatever the position and the word; a non-empty letter is green
    exactly when its upper-case form is the character of the upper-cased
    word at that position, otherwise yellow exactly when its upper-case form
    occurs in the upper-cased word, otherwise grey.  The position is not
    restricted: the statement holds in [0,5) and beyond. *)
Theorem calculateTileStatus_spec (letter : jsstring) (position : nat) (w : jsstring) :
  calculateTileStatus [] position w = white ∧
  (letter ≠ [] →
     (calculateTileStatus letter position w = green
        ↔ matchesAt letter position w) ∧
     (calculateTileStatus letter position w = yellow
        ↔ ¬ matchesAt letter position w ∧ occursIn letter w) ∧
     (calculateTileStatus letter position w = grey
        ↔ ¬ matchesAt letter position w ∧ ¬ occursIn letter w)).
Proof.
  split; [reflexivity|]. intros Hne.
  unfold calculateTileStatus, matchesAt, occursIn.
  destruct letter as [|c l]; [done|].
  destruct (strictEq _ _) eqn:Heq.
  - apply strictEq_true in Heq. repeat split; intros; try done; tauto.
  - assert (Hn : at_index (toUpperCase w) position ≠ Some (toUpperCase (c :: l))).
    { intros H. apply strictEq_true in H. congruence. }
    destruct (includes _ _) eqn:Hin.
    + apply includes_infix in Hin. repeat split; intros; try done; tauto.
    + assert (Hno : ¬ ∃ pre post,
                 toUpperCase w = pre ++ toUpperCase (c :: l) ++ post).
      { intros H. apply includes_infix in H. congruence. }
      repeat split; intros; try done; tauto.
Qed.

Lemma calculateTileStatus_spec_witness :
  lit "r" ≠ [] ∧ calculateTileStatus (lit "r") 1 (lit "CRANE") = green.
Proof.
  assert (Hne : lit "r" ≠ []) by discriminate.
  split; [exact Hne|].
  destruct (calculateTileStatus_spec (lit "r") 1 (lit "CRANE")) as [_ H].
  destruct (H Hne) as [Hg _]. apply Hg. reflexivity.
Defined.

(** ** Submission *)

Lemma handleSubmitGuess_invalid (s : AppState) :
  len (currentGuess s) ≠ 5%nat →
  handleSubmitGuess s = (s, [lit "Must be a 5-letter word!"]).
Proof.
  intros Hlen. unfold handleSubmitGuess, WORD_LENGTH.
  destruct (Nat.eqb_spec (len (currentGuess s)) 5); [done|]. reflexivity.
Qed.

(** The listener hands the Enter key to the submission. *)
Lemma handleKeyPress_Enter (s : AppState) :
  handleKeyPress (lit "Enter") s = handleSubmitGuess s.
Proof. reflexivity. Qed.

(** C3.  From every state, a submission whose in-progress guess does not
    have five code units leaves the list of guesses, the attempt index, the
    game-over flag and the in-progress guess (and the secret word) as they
    were: the state returned is the state given, and the one thing done is
    the validation alert.  The Enter key, which is how a submission is made,
    does the same. *)
Theorem handleSubmitGuess_wrong_length (s : AppState) :
  len (currentGuess s) ≠ 5%nat →
  let s' := fst (handleSubmitGuess s) in
  guessedWords s' = guessedWords s ∧
  currentTry s' = currentTry s ∧
  isGameOver s' = isGameOver s ∧
  currentGuess s' = currentGuess s ∧
  s' = s ∧
  snd (handleSubmitGuess s) = [lit "Must be a 5-letter word!"] ∧
  handleKeyPress (lit "Enter") s = (s, [lit "Must be a 5-letter word!"]).
Proof.
  intros Hlen. cbv zeta.
  pose proof (handleSubmitGuess_invalid s Hlen) as H.
  repeat split; try (by rewrite H).
  by transitivity (handleSubmitGuess s); [apply handleKeyPress_Enter|].
Qed.

Lemma handleSubmitGuess_wrong_length_witness :
  fst (handleSubmitGuess fourLetters) = fourLetters.
Proof.
  assert (Hlen : len (currentGuess fourLetters) ≠ 5%nat) by (vm_compute; lia).
  pose proof (handleSubmitGuess_wrong_length fourLetters Hlen) as H.
  cbv zeta in H. apply H.
Defined.

Lemma arraySet_writesGuess (s s' : AppState) :
  guessedWords s' =
    arraySet (guessedWords s) (currentTry s) (toUpperCase (currentGuess s)) →
  writesGuess s s'.
Proof.
  intros H. unfold writesGuess. rewrite H.
  auto using arraySet_lookup_eq, arraySet_lookup_ne, arraySet_length.
Qed.

(** The three outcomes of a submission of the right length. *)
Lemma handleSubmitGuess_valid (s : AppState) :
  len (currentGuess s) = 5%nat →
  let s1 := setGuessedWords
    (λ prev, arraySet prev (currentTry s) (toUpperCase (currentGuess s))) s in
  handleSubmitGuess s =
    if bool_decide (toUpperCase (currentGuess s) = toUpperCase (word s)) then
      (setIsGameOver true s1, [])
    else if (5 <=? currentTry s)%nat then
      (setIsGameOver true s1, [lit "Game Over! The word was: " ++ word s])
    else
      (setCurrentTry (λ prev, prev + 1)%nat (setCurrentGuess (λ _, []) s1), []).
Proof.
  intros Hlen. unfold handleSubmitGuess, WORD_LENGTH. rewrite Hlen. reflexivity.
Qed.

(** C4.  At every attempt index [i] below six, submitting five code units
    whose upper-casing is the upper-cased secret word writes the upper-cased
    guess at index [i], sets the game-over flag, and changes neither the
    attempt index nor the in-progress guess (nor the secret word); no alert
    is shown. *)
Theorem handleSubmitGuess_win (s : AppState) (i : nat) :
  (i < 6)%nat →
  currentTry s = i →
  len (currentGuess s) = 5%nat →
  toUpperCase (currentGuess s) = toUpperCase (word s) →
  let s' := fst (handleSubmitGuess s) in
  writesGuess s s' ∧
  guessedWords s' !! i = Some (Some (toUpperCase (currentGuess s))) ∧
  isGameOver s' = true ∧
  currentTry s' = i ∧
  currentGuess s' = currentGuess s ∧
  word s' = word s ∧
  snd (handleSubmitGuess s) = [].
Proof.
  intros Hi Htry Hlen Hwin. cbv zeta.
  rewrite (handleSubmitGuess_valid s Hlen). cbv zeta.
  rewrite bool_decide_eq_true_2 by done. cbn [fst snd].
  assert (Hw : writesGuess s (setIsGameOver true (setGuessedWords
    (λ prev, arraySet prev (currentTry s) (toUpperCase (currentGuess s))) s)))
    by (by apply arraySet_writesGuess).
  repeat split; try apply Hw; try done.
  subst i. apply Hw.
Qed.

Lemma handleSubmitGuess_win_witness :
  isGameOver (fst (handleSubmitGuess (craneAt 3))) = true ∧
  currentTry (fst (handleSubmitGuess (craneAt 3))) = 3%nat.
Proof.
  assert (H3 : (3 < 6)%nat) by lia.
  pose proof (handleSubmitGuess_win (craneAt 3) 3 H3 eq_refl eq_refl eq_refl) as H.
  cbv zeta in H. split; apply H.
Defined.

(** C5.  On the last attempt (index 5 of six), submitting five code units
    whose upper-casing is not the upper-cased secret word sets the game-over
    flag and leaves the attempt index at 5; the one alert shown is the
    game-over text followed by the secret word, so it contains the word. *)
Theorem handleSubmitGuess_last_attempt (s : AppState) :
  currentTry s = 5%nat →
  len (currentGuess s) = 5%nat →
  toUpperCase (currentGuess s) ≠ toUpperCase (word s) →
  let s' := fst (handleSubmitGuess s) in
  isGameOver s' = true ∧
  currentTry s' = 5%nat ∧
  writesGuess s s' ∧
  currentGuess s' = currentGuess s ∧
  snd (handleSubmitGuess s) = [lit "Game Over! The word was: " ++ word s] ∧
  (∀ msg, msg ∈ snd (handleSubmitGuess s) → includes msg (word s) = true).
Proof.
  intros Htry Hlen Hlose. cbv zeta.
  rewrite (handleSubmitGuess_valid s Hlen). cbv zeta.
  rewrite bool_decide_eq_false_2 by done. rewrite Htry. cbn [Nat.leb fst snd].
  repeat split; try done.
  1-3: rewrite <- Htry; by apply arraySet_writesGuess.
  intros msg Hmsg. apply list_elem_of_singleton in Hmsg as ->.
  apply includes_app_r.
Qed.

Lemma handleSubmitGuess_last_attempt_witness :
  isGameOver (fst (handleSubmitGuess lastTry)) = true ∧
  currentTry (fst (handleSubmitGuess lastTry)) = 5%nat.
Proof.
  assert (Hne : toUpperCase (currentGuess lastTry) ≠ toUpperCase (word lastTry))
    by (vm_compute; discriminate).
  pose proof (handleSubmitGuess_last_attempt lastTry eq_refl eq_refl Hne) as H.
  cbv zeta in H. split; apply H.
Defined.

(** C6.  Before the last attempt (index below 5), submitting five code
    units whose upper-casing is not the upper-cased secret word writes the
    upper-cased guess at the current index, empties the in-progress guess,
    adds exactly one to the attempt index and does not touch the game-over
    flag, which therefore stays false; no alert is shown. *)
Theorem handleSubmitGuess_next_attempt (s : AppState) :
  (currentTry s < 5)%nat →
  len (currentGuess s) = 5%nat →
  toUpperCase (currentGuess s) ≠ toUpperCase (word s) →
  let s' := fst (handleSubmitGuess s) in
  writesGuess s s' ∧
  currentGuess s' = [] ∧
  currentTry s' = (currentTry s + 1)%nat ∧
  isGameOver s' = isGameOver s ∧
  (isGameOver s = false → isGameOver s' = false) ∧
  word s' = word s ∧
  snd (handleSubmitGuess s) = [].
Proof.
  intros Htry Hlen Hlose. cbv zeta.
  rewrite (handleSubmitGuess_valid s Hlen). cbv zeta.
  rewrite bool_decide_eq_false_2 by done.
  destruct (Nat.leb_spec 5 (currentTry s)); [lia|]. cbn [fst snd].
  repeat split; try done.
  all: by apply arraySet_writesGuess.
Qed.

Lemma handleSubmitGuess_next_attempt_witness :
  currentGuess (fst (handleSubmitGuess firstTry)) = [] ∧
  currentTry (fst (handleSubmitGuess firstTry)) = 1%nat ∧
  isGameOver (fst (handleSubmitGuess firstTry)) = false.
Proof.
  assert (Htry : (currentTry firstTry < 5)%nat) by (vm_compute; lia).
  assert (Hne : toUpperCase (currentGuess firstTry) ≠ toUpperCase (word firstTry))
    by (vm_compute; discriminate).
  pose proof (handleSubmitGuess_next_attempt firstTry Htry eq_refl Hne) as H.
  cbv zeta in H. destruct H as (_ & Hg & Ht & _ & Hover & _).
  split; [exact Hg|]. split; [exact Ht|]. apply Hover. reflexivity.
Defined.

(** C2, refuted as the specification words it (row 0 grey, green, yellow,
    yellow, green): the third letter [A] of [TRACE] is the third letter of
    [CRANE], and the board shows it green, not yellow. *)
Lemma scenario_TRACE_A_not_yellow :
  ¬ (let s' := fst (handleSubmitGuess firstTry) in
     currentTry s' = 1%nat ∧
     (map tileStatus <$> (renderGameField s' ≫= (.!! 0%nat)))
       = Some [grey; green; yellow; yellow; green]).
Proof. vm_compute. intros [_ H]. discriminate. Qed.

(** C2, amended.  With secret word [CRANE] and [TRACE] submitted at attempt
    0, the attempt index becomes 1 and row 0 of the board shows T grey,
    R green, A green, C yellow, E green; the same holds when the guess is
    typed and entered key by key after the fetch delivered [crane]. *)
Theorem scenario_TRACE :
  let s' := fst (handleSubmitGuess firstTry) in
  currentTry s' = 1%nat ∧
  renderGameField s' ≫= (.!! 0%nat) =
    Some [mkTile (lit "T") grey; mkTile (lit "R") green; mkTile (lit "A") green;
          mkTile (lit "C") yellow; mkTile (lit "E") green] ∧
  calculateTileStatus (lit "A") 2 (lit "CRANE") = green ∧
  run (typeKeys (lit "trace") ++ [Enter]) (mount (Some (lit "crane"))) = s'.
Proof. vm_compute. repeat split. Qed.

(** ** Reset *)

(** C7.  From every state, Reset gives six empty strings, attempt index 0,
    a false game-over flag and an empty in-progress guess, keeps the secret
    word, and shows no alert; the button does exactly this whenever the board
    is on screen. *)
Theorem resetGame_spec (s : AppState) :
  resetGame s =
    (mkApp (word s) (replicate 6 (Some [])) 0 false [], []) ∧
  word (fst (resetGame s)) = word s ∧
  (word s = [] ∨ dispatch ClickReset s = resetGame s).
Proof.
  repeat split. unfold dispatch. destruct (word s); [by left | by right].
Qed.

(** ** Reachable states *)

Section Reachability.

Implicit Types (s : AppState) (e : Event).

Lemma run_cons e es s : run (e :: es) s = run es (step e s).
Proof. reflexivity. Qed.

Lemma reachable_run es s : reachable s → reachable (run es s).
Proof.
  revert s. induction es as [|e es IH]; intros s Hs; [done|].
  rewrite run_cons. apply IH. by constructor.
Qed.

Lemma INITIAL_GUESSES_lookup i :
  (i < 6)%nat → INITIAL_GUESSES !! i = Some (Some []).
Proof. intros Hi. by apply lookup_replicate_2. Qed.

Lemma gameInv_fresh (w g : jsstring) :
  toUpperCase w = w → gameInv (mkApp w INITIAL_GUESSES 0 false g).
Proof.
  intros Hw. split; cbn [word guessedWords currentTry isGameOver currentGuess];
    try done; try lia.
  - intros i _ Hi. by apply INITIAL_GUESSES_lookup.
Qed.

Lemma gameInv_setCurrentGuess f s :
  isGameOver s = false → gameInv s → gameInv (setCurrentGuess f s).
Proof.
  intros Hplay [].
  split; cbn [setCurrentGuess word guessedWords currentTry isGameOver currentGuess];
    try done.
  congruence.
Qed.

Lemma gameInv_submit s :
  word s ≠ [] → isGameOver s = false → gameInv s →
  gameInv (fst (handleSubmitGuess s)).
Proof.
  intros Hword Hplay Hinv.
  destruct (decide (len (currentGuess s) = 5%nat)) as [Hlen|Hlen];
    [|by rewrite handleSubmitGuess_invalid].
  rewrite (handleSubmitGuess_valid s Hlen). cbv zeta.
  destruct Hinv as [Hl Ht Hw Hload Hpast Hfut Hcur _].
  assert (Hin : (currentTry s < length (guessedWords s))%nat) by lia.
  case_bool_decide as Hwin; [|destruct (Nat.leb_spec 5 (currentTry s)) as [Hlast|Hmore]];
    cbn [fst]; split;
    cbn [setIsGameOver setCurrentTry setCurrentGuess setGuessedWords
         word guessedWords currentTry isGameOver currentGuess];
    try done; try lia; try (by rewrite arraySet_length).
  - intros i Hi. rewrite arraySet_lookup_ne by lia. auto.
  - intros i Hi Hi6. rewrite arraySet_lookup_ne by lia. auto.
  - intros _. rewrite arraySet_lookup_eq. repeat split; try done.
    left. congruence.
  - intros i Hi. rewrite arraySet_lookup_ne by lia. auto.
  - intros _. rewrite arraySet_lookup_eq. repeat split; try done.
    right. split; [lia | congruence].
  - intros i Hi. destruct (decide (i = currentTry s)) as [->|Hne].
    + rewrite arraySet_lookup_eq. eexists; split; [done | congruence].
    + rewrite arraySet_lookup_ne by lia. apply Hpast. lia.
  - intros i Hi Hi6. rewrite arraySet_lookup_ne by lia. apply Hfut; lia.
  - intros _. rewrite arraySet_lookup_ne by lia. apply Hfut; lia.
  - congruence.
Qed.

Lemma gameInv_step e s : gameInv s → gameInv (step e s).
Proof.
  intros Hinv. unfold step, dispatch.
  destruct (word s) as [|c w] eqn:Hword; [done|].
  assert (Hne : word s ≠ []) by (rewrite Hword; discriminate).
  destruct e as [key| |].
  - destruct (isGameOver s) eqn:Hover; [done|].
    unfold handleKeyPress.
    repeat match goal with
    | |- context [if ?b then _ else _] => destruct b
    end; try done; try (by apply gameInv_setCurrentGuess).
    by apply gameInv_submit.
  - by destruct (isGameOver s).
  - change (gameInv (mkApp (word s) INITIAL_GUESSES 0 false [])).
    apply gameInv_fresh, Hinv.
Qed.

Lemma reachable_gameInv s : reachable s → gameInv s.
Proof.
  induction 1 as [|response|e s _ IH].
  - by apply gameInv_fresh.
  - destruct response as [solution|]; cbn.
    + apply gameInv_fresh, toUpperCase_idempotent.
    + by apply gameInv_fresh.
  - by apply gameInv_step.
Qed.

(** Key presses and "Reveal Word" never lower the attempt index, and raise
    it by one at most. *)
Lemma step_currentTry_mono e s :
  e ≠ ClickReset →
  (currentTry s ≤ currentTry (step e s) ≤ currentTry s + 1)%nat.
Proof.
  intros He. unfold step, dispatch.
  destruct (word s); [cbn; lia|].
  destruct e as [key| |]; [| |done].
  - destruct (isGameOver s); [cbn; lia|].
    unfold handleKeyPress, handleSubmitGuess.
    repeat match goal with
    | |- context [if ?b then _ else _] => destruct b
    end; cbn; lia.
  - destruct (isGameOver s); cbn; lia.
Qed.

Lemma step_reset_currentTry s :
  gameInv s → currentTry (step ClickReset s) = 0%nat.
Proof.
  intros Hinv. unfold step, dispatch.
  destruct (word s) eqn:Hword; [|done].
  by apply (inv_loading s Hinv).
Qed.

End Reachability.

(** ** The attempt index *)

(** C8, refuted as stated (in range and never decreasing across any
    operation): after one wrong guess the attempt index is 1, and Reset puts
    it back to 0. *)
Lemma currentTry_decreases_on_reset :
  ¬ (∀ s e, reachable s →
       (currentTry s < 6)%nat ∧ (currentTry s ≤ currentTry (step e s))%nat).
Proof.
  intros H. destruct (H afterOneGuess ClickReset) as [_ Hle].
  - apply reachable_run, reach_mount.
  - vm_compute in Hle. lia.
Qed.

(** C8, amended.  In every reachable state the attempt index is below six;
    a key press (a submission included) or "Reveal Word" never lowers it and
    raises it by one at most; Reset sets it to 0. *)
Theorem currentTry_range (s : AppState) :
  reachable s →
  (currentTry s < MAX_TRIES)%nat ∧
  (∀ e, e ≠ ClickReset →
        (currentTry s ≤ currentTry (step e s) ≤ currentTry s + 1)%nat) ∧
  currentTry (step ClickReset s) = 0%nat.
Proof.
  intros Hs. pose proof (reachable_gameInv s Hs) as Hinv.
  split; [apply Hinv|]. split.
  - intros e He. by apply step_currentTry_mono.
  - by apply step_reset_currentTry.
Qed.

Lemma currentTry_range_witness :
  (currentTry afterOneGuess < MAX_TRIES)%nat ∧
  currentTry (step ClickReset afterOneGuess) = 0%nat.
Proof.
  assert (Hs : reachable afterOneGuess) by apply reachable_run, reach_mount.
  destruct (currentTry_range afterOneGuess Hs) as (Hlt & _ & Hreset).
  split; [exact Hlt | exact Hreset].
Defined.

(** ** The end-of-game message *)

(** C9.  In every reachable state whose game-over flag is set: the row at
    the attempt index holds the last submitted guess, which is the
    upper-cased text still held as the in-progress guess; the message shown
    is "You Win!" exactly when some row of the list is the secret word, and
    otherwise "You Lost!"; and some row is the secret word exactly when the
    last submitted guess is the upper-cased secret word. *)
Theorem gameStatus_verdict (s : AppState) :
  reachable s →
  isGameOver s = true →
  let lastSubmitted := toUpperCase (currentGuess s) in
  let someRowIsWord := ∃ i, guessedWords s !! i = Some (Some (word s)) in
  guessedWords s !! currentTry s = Some (Some lastSubmitted) ∧
  (gameStatus s = Some (lit "You Win!") ↔ someRowIsWord) ∧
  (gameStatus s = Some (lit "You Lost!") ↔ ¬ someRowIsWord) ∧
  (someRowIsWord ↔ lastSubmitted = toUpperCase (word s)).
Proof.
  intros Hs Hover. cbv zeta.
  destruct (reachable_gameInv s Hs) as [Hl Ht Hw _ Hpast Hfut _ Hend].
  destruct (Hend Hover) as (Hne & Hrow & Hcase).
  split; [exact Hrow|].
  unfold gameStatus. rewrite Hover, Hw.
  destruct (arrayIncludes _ _) eqn:Hinc.
  - assert (Hex : ∃ i, guessedWords s !! i = Some (Some (word s)))
      by (by apply arrayIncludes_lookup).
    split; [done|]. split; [split; [discriminate | done]|].
    split; [|done]. intros _.
    destruct Hcase as [Hwin | [H5 Hlose]]; [done|].
    destruct Hex as [i Hi].
    assert (Hi6 : (i < 6)%nat) by (rewrite <- Hl; by eapply lookup_lt_Some).
    destruct (decide (i = currentTry s)) as [->|Hi5]; [congruence|].
    destruct (Hpast i) as (g & Hg & Hgne); [lia | congruence].
  - assert (Hex : ¬ ∃ i, guessedWords s !! i = Some (Some (word s))).
    { intros H. apply arrayIncludes_lookup in H. congruence. }
    split; [split; [discriminate | done]|]. split; [done|].
    split; [done|]. intros Heq. destruct Hex.
    exists (currentTry s). congruence.
Qed.

Lemma gameStatus_verdict_witness :
  gameStatus wonAtFirstTry = Some (lit "You Win!").
Proof.
  assert (Hs : reachable wonAtFirstTry) by apply reachable_run, reach_mount.
  destruct (gameStatus_verdict wonAtFirstTry Hs eq_refl) as (_ & Hwin & _ & Hlast).
  apply Hwin, Hlast. reflexivity.
Defined.

(** ** The in-progress guess *)

Section InProgressGuess.

Implicit Types (s : AppState) (e : Event) (g key : jsstring).

Lemma alphabet_unit (c : codeUnit) :
  includes AVAILABLE_LETTERS [c] = true → isUpperLetter c = true.
Proof.
  intros (pre & post & H)%includes_infix.
  assert (Hall : forallb isUpperLetter AVAILABLE_LETTERS = true) by reflexivity.
  rewrite forallb_forall in Hall. apply Hall.
  rewrite H, in_app_iff. right. by left.
Qed.

Lemma guessOK_nil : guessOK [].
Proof. split; [cbn; lia | constructor]. Qed.

(** Backspace and Delete: [slice(0, -1)] shortens, and leaves the empty
    guess empty. *)
Lemma guessOK_slice g : guessOK g → guessOK (slice_0_m1 g).
Proof.
  intros [Hlen Hall]. unfold slice_0_m1, guessOK, len in *. split.
  - rewrite length_take. lia.
  - by apply Forall_take.
Qed.

Lemma slice_nil : slice_0_m1 [] = [].
Proof. reflexivity. Qed.

Lemma guessOK_append g key :
  plainKey key → guessOK g →
  includes AVAILABLE_LETTERS (toUpperCase key) = true →
  (len g <? WORD_LENGTH)%nat = true →
  guessOK (g ++ toUpperCase key).
Proof.
  intros Hplain [Hlen Hall] Hin Hroom.
  apply Nat.ltb_lt in Hroom. specialize (Hplain Hin).
  destruct (toUpperCase key) as [|c [|? ?]]; try discriminate.
  unfold guessOK, len in *. split.
  - rewrite length_app. cbn. lia.
  - apply Forall_app. split; [done|].
    constructor; [by apply alphabet_unit | constructor].
Qed.

Lemma guessOK_submit s :
  guessOK (currentGuess s) → guessOK (currentGuess (fst (handleSubmitGuess s))).
Proof.
  intros Hok. unfold handleSubmitGuess.
  repeat match goal with
  | |- context [if ?b then _ else _] => destruct b
  end; try done. apply guessOK_nil.
Qed.

Lemma guessOK_step e s :
  plainEvent e → guessOK (currentGuess s) → guessOK (currentGuess (step e s)).
Proof.
  intros He Hok. unfold step, dispatch.
  destruct (word s); [done|].
  destruct e as [key| |].
  - destruct (isGameOver s); [done|]. unfold handleKeyPress.
    destruct (bool_decide (toUpperCase key = lit "ENTER"));
      [by apply guessOK_submit|].
    destruct (_ || _); [by apply guessOK_slice|].
    destruct (includes _ _) eqn:Hin; [|done].
    destruct (_ <? _)%nat eqn:Hroom; [|done].
    by apply guessOK_append.
  - by destruct (isGameOver s).
  - apply guessOK_nil.
Qed.

(** As long as no key has an upper-case form of several code units that
    passes the alphabet test, the in-progress guess stays within five
    letters [A]..[Z] under typing, Backspace, Delete, Enter, Reveal and
    Reset. *)
Lemma guessOK_run (response : option jsstring) (es : list Event) :
  Forall plainEvent es → guessOK (currentGuess (run es (mount response))).
Proof.
  assert (H0 : guessOK (currentGuess (mount response)))
    by (destruct response; apply guessOK_nil).
  revert H0. generalize (mount response).
  induction es as [|e es IH]; intros s Hok Hes; [done|].
  apply Forall_cons in Hes as [He Hes]. rewrite run_cons.
  apply IH; [by apply guessOK_step | done].
Qed.

End InProgressGuess.

(** C10 at the failing input.  The state is reached by typing [abcd]; the
    next key is the single character U+FB06, whose upper-case form is the two
    letters [ST]; [ST] is a run of the alphabet string, the guess has four
    letters, and the listener appends both: the in-progress guess has six
    code units. *)
Theorem ligature_key_overflows_guess :
  reachable fourTyped ∧
  len ligature_st = 1%nat ∧
  currentGuess fourTyped = lit "ABCD" ∧
  isGameOver fourTyped = false ∧
  toUpperCase ligature_st = lit "ST" ∧
  currentGuess (step (KeyDown ligature_st) fourTyped) = lit "ABCDST" ∧
  len (currentGuess (step (KeyDown ligature_st) fourTyped)) = 6%nat ∧
  reachable (step (KeyDown ligature_st) fourTyped).
Proof.
  assert (Hs : reachable fourTyped) by apply reachable_run, reach_mount.
  repeat split; try reflexivity; [exact Hs | by constructor].
Qed.

(** ** Letter keys *)

Section Keys.

Implicit Types (s : AppState) (e : Event) (g key w : jsstring) (c : codeUnit).

Lemma upperCodeUnit_upper c : isUpperLetter c = true → upperCodeUnit c = [c].
Proof.
  unfold isUpperLetter. rewrite andb_true_iff, !N.leb_le. intros [Hlo Hhi].
  unfold upperCodeUnit.
  repeat match goal with
  | |- context [?x <=? ?y] => destruct (N.leb_spec x y); cbn [andb]; try lia
  | |- context [?x =? ?y] => destruct (N.eqb_spec x y); try lia
  end; reflexivity.
Qed.

Lemma toUpperCase_lettersOnly g : lettersOnly g → toUpperCase g = g.
Proof.
  unfold toUpperCase. induction 1 as [|c g Hc _ IH]; [done|].
  cbn [flat_map]. by rewrite (upperCodeUnit_upper c Hc), IH.
Qed.

Lemma upperCodeUnit_ascii c :
  isAsciiLetter c = true →
  ∃ C, upperCodeUnit c = [C] ∧ isUpperLetter C = true.
Proof.
  unfold isAsciiLetter. rewrite orb_true_iff. intros [Hup | Hlow].
  - exists c. by rewrite upperCodeUnit_upper.
  - exists (c - 0x20). unfold upperCodeUnit. rewrite Hlow. split; [done|].
    apply andb_true_iff in Hlow as [Hlo Hhi]. apply N.leb_le in Hlo, Hhi.
    unfold isUpperLetter. apply andb_true_iff. rewrite !N.leb_le. lia.
Qed.

Lemma toUpperCase_letterKeys w :
  letterKeys w → lettersOnly (toUpperCase w) ∧ len (toUpperCase w) = len w.
Proof.
  unfold toUpperCase, len. induction 1 as [|c w Hc _ [IH1 IH2]].
  - split; [constructor | done].
  - destruct (upperCodeUnit_ascii c Hc) as (C & HC & HU).
    cbn [flat_map]. rewrite HC. cbn. split; [by constructor | by rewrite IH2].
Qed.

(** Every run of the alphabet string is made of capital letters, and every
    capital letter is such a run. *)
Lemma includes_alphabet_letters key :
  includes AVAILABLE_LETTERS key = true → lettersOnly key.
Proof.
  intros (pre & post & H)%includes_infix.
  assert (Hall : forallb isUpperLetter AVAILABLE_LETTERS = true) by reflexivity.
  rewrite forallb_forall in Hall. apply Forall_forall. intros c Hc.
  apply Hall. rewrite H, !in_app_iff. right; left. by apply list_elem_of_In.
Qed.

Lemma alphabet_includes_letter c :
  isUpperLetter c = true → includes AVAILABLE_LETTERS [c] = true.
Proof.
  unfold isUpperLetter. rewrite andb_true_iff, !N.leb_le. intros [Hlo Hhi].
  assert (Hk : ∀ k : nat, (k < 26)%nat →
            includes AVAILABLE_LETTERS [0x41 + N.of_nat k] = true).
  { intros k Hk. do 26 (destruct k as [|k]; [reflexivity|]). lia. }
  replace c with (0x41 + N.of_nat (N.to_nat (c - 0x41))) by lia.
  apply Hk. lia.
Qed.

(** What the listener does with a letter key while the game is on. *)
Lemma step_letter_key c s :
  word s ≠ [] → isGameOver s = false → isAsciiLetter c = true →
  dispatch (KeyDown [c]) s =
    if (len (currentGuess s) <? WORD_LENGTH)%nat
    then (setCurrentGuess (λ prev, prev ++ toUpperCase [c]) s, [])
    else (s, []).
Proof.
  intros Hw Hplay Hc. unfold dispatch. destruct (word s) as [|? ?]; [done|].
  rewrite Hplay. unfold handleKeyPress.
  destruct (upperCodeUnit_ascii c Hc) as (C & HC & HU).
  assert (Hup : toUpperCase [c] = [C]) by (cbn; by rewrite HC).
  rewrite Hup.
  rewrite !bool_decide_eq_false_2
    by (intros H; apply (f_equal length) in H; discriminate H).
  cbn [orb]. rewrite (alphabet_includes_letter C HU). reflexivity.
Qed.

Lemma step_Enter s :
  word s ≠ [] → isGameOver s = false →
  dispatch Enter s = handleSubmitGuess s.
Proof.
  intros Hw Hplay. unfold dispatch. destruct (word s); [done|].
  by rewrite Hplay.
Qed.

Lemma step_Backspace s :
  word s ≠ [] → isGameOver s = false →
  dispatch Backspace s = (setCurrentGuess slice_0_m1 s, []).
Proof.
  intros Hw Hplay. unfold dispatch. destruct (word s); [done|].
  by rewrite Hplay.
Qed.

Lemma setCurrentGuess_id f s :
  f (currentGuess s) = currentGuess s → setCurrentGuess f s = s.
Proof. intros H. destruct s. unfold setCurrentGuess. cbn in *. by rewrite H. Qed.

End Keys.

(** ** Further properties of the tile colouring and of the listener *)


Lemma word_step (e : Event) (s : AppState) : word (step e s) = word s.
Proof.
  unfold step, dispatch. destruct (word s) eqn:Hw; [done|].
  destruct e as [key| |].
  - destruct (isGameOver s); [done|].
    unfold handleKeyPress, handleSubmitGuess.
    repeat match goal with
    | |- context [if ?b then _ else _] => destruct b
    end; done.
  - by destruct (isGameOver s).
  - done.
Qed.

(** X2.  No sequence of key presses and button clicks changes the secret
    word. *)
Theorem word_run (es : list Event) (s : AppState) : word (run es s) = word s.
Proof.
  revert s. induction es as [|e es IH]; intros s; [done|].
  by rewrite run_cons, IH, word_step.
Qed.

Section Board.

Implicit Types (s : AppState) (e : Event) (g key w : jsstring).

Lemma boardInv_fresh w : boardInv (freshGame w).
Proof.
  split; cbn [freshGame currentGuess isGameOver currentTry guessedWords];
    [constructor | done | intros; lia].
Qed.

Lemma boardInv_submit s :
  gameInv s → isGameOver s = false → boardInv s →
  boardInv (fst (handleSubmitGuess s)).
Proof.
  intros Hinv Hplay [Hg Hover Hpast].
  destruct (decide (len (currentGuess s) = 5%nat)) as [Hlen|Hlen];
    [|by rewrite handleSubmitGuess_invalid].
  rewrite (handleSubmitGuess_valid s Hlen). cbv zeta.
  assert (Hin : (currentTry s < length (guessedWords s))%nat)
    by (rewrite (inv_length s Hinv); apply (inv_try s Hinv)).
  rewrite (toUpperCase_lettersOnly _ Hg).
  case_bool_decide as Hwin;
    [|destruct (Nat.leb_spec 5 (currentTry s)) as [Hlast|Hmore]];
    cbn [fst]; split;
    cbn [setIsGameOver setCurrentTry setCurrentGuess setGuessedWords
         word guessedWords currentTry isGameOver currentGuess];
    try done; try (by constructor).
  1-2: intros i g Hi; rewrite arraySet_lookup_ne by lia; by apply Hpast.
  { congruence. }
  intros i g Hi. destruct (decide (i = currentTry s)) as [->|Hne].
  - rewrite arraySet_lookup_eq. by intros [= <-].
  - rewrite arraySet_lookup_ne by lia. apply Hpast. lia.
Qed.

Lemma boardInv_step e s : gameInv s → boardInv s → boardInv (step e s).
Proof.
  intros Hinv Hb. unfold step, dispatch.
  destruct (word s) as [|c0 w0] eqn:Hword; [done|].
  destruct e as [key| |].
  - destruct (isGameOver s) eqn:Hplay; [done|]. unfold handleKeyPress.
    destruct (bool_decide (toUpperCase key = lit "ENTER"));
      [by apply boardInv_submit|].
    destruct Hb as [Hg Hover Hpast].
    destruct (_ || _).
    { split; cbn; [by apply Forall_take | congruence | done]. }
    destruct (includes _ _) eqn:Hin; [|done].
    destruct (_ <? _)%nat; [|done].
    split; cbn; [|congruence | done].
    apply Forall_app. split; [done | by apply includes_alphabet_letters].
  - by destruct (isGameOver s).
  - apply (boardInv_fresh (word s)).
Qed.

Lemma reachable_boardInv s : reachable s → boardInv s.
Proof.
  induction 1 as [|response|e s Hs IH].
  - apply (boardInv_fresh []).
  - destruct response; apply boardInv_fresh.
  - apply boardInv_step; [by apply reachable_gameInv | done].
Qed.

End Board.

(** X3.  In every reachable state, whatever keys were sent, the in-progress
    guess consists of capital letters [A]..[Z] only; upper-casing it, as the
    submission does, therefore leaves it as it is. *)
Theorem currentGuess_letters (s : AppState) :
  reachable s →
  lettersOnly (currentGuess s) ∧
  toUpperCase (currentGuess s) = currentGuess s.
Proof.
  intros Hs. pose proof (b_guess s (reachable_boardInv s Hs)) as Hg.
  split; [done | by apply toUpperCase_lettersOnly].
Qed.

Lemma currentGuess_letters_witness :
  currentGuess (step (KeyDown ligature_st) fourTyped) = lit "ABCDST" ∧
  lettersOnly (currentGuess (step (KeyDown ligature_st) fourTyped)).
Proof.
  split; [reflexivity|].
  assert (Hs : reachable (step (KeyDown ligature_st) fourTyped))
    by (apply reach_step, reachable_run, reach_mount).
  apply (currentGuess_letters _ Hs).
Defined.

(** X4.  While the game is on and the row is not full, a letter key followed
    by Backspace gives back the state before the letter. *)
Theorem backspace_undoes_letter (c : codeUnit) (s : AppState) :
  word s ≠ [] →
  isGameOver s = false →
  isAsciiLetter c = true →
  (len (currentGuess s) < WORD_LENGTH)%nat →
  step Backspace (step (KeyDown [c]) s) = s.
Proof.
  intros Hw Hplay Hc Hlen. unfold step at 2.
  rewrite (step_letter_key c s Hw Hplay Hc).
  apply Nat.ltb_lt in Hlen. rewrite Hlen. cbn [fst].
  unfold step. rewrite step_Backspace by done. cbn [fst].
  destruct s as [w gw t o g]. unfold setCurrentGuess, slice_0_m1. cbn. f_equal.
  destruct (upperCodeUnit_ascii c Hc) as (C & HC & _). rewrite HC. cbn.
  rewrite length_app. cbn. apply take_app_length'. lia.
Qed.

Lemma backspace_undoes_letter_witness :
  step Backspace (step (KeyDown (lit "e")) fourTyped) = fourTyped.
Proof.
  apply (backspace_undoes_letter 0x65 fourTyped);
    [discriminate | reflexivity | reflexivity | vm_compute; lia].
Defined.

Lemma setCurrentGuess_ext (f f' : list N → list N) (s : AppState) :
  f (currentGuess s) = f' (currentGuess s) →
  setCurrentGuess f s = setCurrentGuess f' s.
Proof. intros H. unfold setCurrentGuess. by rewrite H. Qed.

Lemma typeKeys_run (w : jsstring) (s : AppState) :
  word s ≠ [] → isGameOver s = false → letterKeys w →
  (len (currentGuess s) ≤ WORD_LENGTH)%nat →
  run (typeKeys w) s =
    setCurrentGuess (λ g, take WORD_LENGTH (g ++ toUpperCase w)) s.
Proof.
  intros Hw Hplay Hkeys. revert s Hw Hplay.
  induction Hkeys as [|c w Hc _ IH]; intros s Hw Hplay Hlen.
  - cbn [typeKeys map run foldl toUpperCase flat_map]. symmetry.
    apply setCurrentGuess_id. rewrite app_nil_r. by apply take_ge.
  - change (typeKeys (c :: w)) with (KeyDown [c] :: typeKeys w).
    rewrite run_cons. unfold step at 1.
    rewrite (step_letter_key c s Hw Hplay Hc).
    destruct (upperCodeUnit_ascii c Hc) as (C & HC & _).
    assert (Hup : toUpperCase (c :: w) = C :: toUpperCase w)
      by (unfold toUpperCase; cbn [flat_map]; by rewrite HC).
    assert (Hup1 : toUpperCase [c] = [C]) by (cbn; by rewrite HC).
    rewrite Hup, Hup1.
    destruct (Nat.ltb_spec (len (currentGuess s)) WORD_LENGTH) as [Hroom|Hfull];
      cbn [fst].
    + rewrite IH; try done.
      * unfold setCurrentGuess; cbn. by rewrite <- app_assoc.
      * unfold setCurrentGuess, len in *; cbn. rewrite length_app. cbn. lia.
    + rewrite IH by done. apply setCurrentGuess_ext.
      unfold len in *. rewrite !take_app_length' by lia. done.
Qed.

(** X5.  While the game is on, typing letter keys appends their capitals to
    the in-progress guess up to five code units and ignores the rest; nothing
    else in the state changes. *)
Theorem typeKeys_currentGuess (w : jsstring) (s : AppState) :
  word s ≠ [] →
  isGameOver s = false →
  letterKeys w →
  (len (currentGuess s) ≤ WORD_LENGTH)%nat →
  run (typeKeys w) s =
    mkApp (word s) (guessedWords s) (currentTry s) (isGameOver s)
          (take 5 (currentGuess s ++ toUpperCase w)).
Proof. intros Hw Hplay Hkeys Hlen. by rewrite typeKeys_run. Qed.

Lemma typeKeys_currentGuess_witness :
  currentGuess (run (typeKeys (lit "Crowned")) (mount (Some (lit "crane"))))
    = lit "CROWN".
Proof.
  rewrite (typeKeys_currentGuess (lit "Crowned") (mount (Some (lit "crane"))));
    [reflexivity | discriminate | reflexivity | | vm_compute; lia].
  unfold letterKeys. repeat constructor.
Defined.

(** ** The rendered board *)

Section Render.

Implicit Types (s : AppState) (g w : jsstring) (grid : list (list Tile)).

Lemma padEnd_nil g n : padEnd g n [] = g.
Proof. unfold padEnd. by destruct (n <=? length g)%nat. Qed.

Lemma guessedWords_rows s i :
  gameInv s → (i < 6)%nat → ∃ g, guessedWords s !! i = Some (Some g).
Proof.
  intros Hinv Hi.
  destruct (lt_eq_lt_dec i (currentTry s)) as [[Hlt | ->] | Hgt].
  - destruct (inv_past s Hinv i Hlt) as (g & Hg & _). eauto.
  - destruct (isGameOver s) eqn:Hover.
    + destruct (inv_over s Hinv Hover) as (_ & Hrow & _). eauto.
    + pose proof (inv_playing s Hinv Hover). eauto.
  - pose proof (inv_future s Hinv i Hgt Hi). eauto.
Qed.

Lemma fullGrid_length s : gameInv s → length (fullGrid s) = 6%nat.
Proof.
  intros Hinv. unfold fullGrid. rewrite arraySet_length.
  - apply Hinv.
  - rewrite (inv_length s Hinv). apply Hinv.
Qed.

Lemma fullGrid_current s :
  fullGrid s !! currentTry s = Some (Some (currentGuess s)).
Proof. unfold fullGrid. by rewrite arraySet_lookup_eq, padEnd_nil. Qed.

Lemma fullGrid_other s i :
  gameInv s → i ≠ currentTry s → (i < 6)%nat →
  fullGrid s !! i = guessedWords s !! i.
Proof.
  intros Hinv Hne Hi. unfold fullGrid. apply arraySet_lookup_ne; [done|].
  by rewrite (inv_length s Hinv).
Qed.

Lemma fullGrid_rows s i :
  gameInv s → (i < 6)%nat → ∃ g, fullGrid s !! i = Some (Some g).
Proof.
  intros Hinv Hi. destruct (decide (i = currentTry s)) as [->|Hne].
  - rewrite fullGrid_current. eauto.
  - rewrite fullGrid_other by done. by apply guessedWords_rows.
Qed.

Lemma render_is_Some s : gameInv s → is_Some (renderGameField s).
Proof.
  intros Hinv. unfold renderGameField. apply mapM_is_Some_2, Forall_lookup.
  intros i [i' x] Hix. apply list_lookup_imap_Some in Hix as (x' & Hx & Heq).
  injection Heq as -> ->.
  destruct (fullGrid_rows s i Hinv) as [g Hg].
  - rewrite <- (fullGrid_length s Hinv). by eapply lookup_lt_Some.
  - rewrite Hg in Hx. injection Hx as <-. by eexists.
Qed.

Lemma render_lookup s grid i x :
  renderGameField s = Some grid → fullGrid s !! i = Some x →
  ∃ row, grid !! i = Some row ∧ renderRow s i x = Some row.
Proof.
  intros Hr Hx. unfold renderGameField in Hr. apply mapM_Some_1 in Hr.
  eapply (Forall2_lookup_l _ _ _ i (i, x)) in Hr as (row & Hrow & Hf); [eauto|].
  by rewrite list_lookup_imap, Hx.
Qed.

Lemma renderRow_tile s i g row j :
  renderRow s i (Some g) = Some row → (j < 5)%nat →
  length row = 5%nat ∧
  row !! j = Some (mkTile (default [] (at_index g j))
    (if (i <? currentTry s)%nat || (isGameOver s && (i =? currentTry s)%nat)
     then calculateTileStatus (default [] (at_index g j)) j (word s)
     else white)).
Proof.
  intros Hrow Hj. unfold renderRow in Hrow. cbn [mbind option_bind] in Hrow.
  injection Hrow as <-. split; [done|].
  do 5 (destruct j as [|j]; [done|]). lia.
Qed.

Lemma render_tile s grid i j g :
  renderGameField s = Some grid → fullGrid s !! i = Some (Some g) →
  (j < 5)%nat →
  tileAt grid i j = Some (mkTile (default [] (at_index g j))
    (if (i <? currentTry s)%nat || (isGameOver s && (i =? currentTry s)%nat)
     then calculateTileStatus (default [] (at_index g j)) j (word s)
     else white)).
Proof.
  intros Hr Hg Hj.
  destruct (render_lookup s grid i _ Hr Hg) as (row & Hrow & Hrr).
  unfold tileAt. rewrite Hrow. cbn.
  by apply (renderRow_tile s i g row j Hrr).
Qed.

End Render.

(** X6.  In every reachable state the board renders without a [TypeError],
    as six rows of five tiles. *)
Theorem renderGameField_total (s : AppState) :
  reachable s →
  ∃ grid, renderGameField s = Some grid ∧
          length grid = MAX_TRIES ∧
          ∀ row, row ∈ grid → length row = WORD_LENGTH.
Proof.
  intros Hs. pose proof (reachable_gameInv s Hs) as Hinv.
  destruct (render_is_Some s Hinv) as [grid Hgrid]. exists grid.
  split; [done|]. split.
  - unfold renderGameField in Hgrid. apply length_mapM in Hgrid.
    rewrite <- Hgrid, length_imap. by apply fullGrid_length.
  - intros row (i & Hi)%list_elem_of_lookup.
    assert (Hi6 : (i < length (fullGrid s))%nat).
    { unfold renderGameField in Hgrid. apply length_mapM in Hgrid.
      rewrite length_imap in Hgrid. rewrite Hgrid. by eapply lookup_lt_Some. }
    destruct (fullGrid_rows s i Hinv) as [g Hg];
      [by rewrite <- (fullGrid_length s Hinv)|].
    destruct (render_lookup s grid i _ Hgrid Hg) as (row' & Hrow' & Hrr).
    assert (row' = row) as -> by congruence.
    apply (renderRow_tile s i g row 0 Hrr). lia.
Qed.

Lemma renderGameField_total_witness :
  ∃ grid, renderGameField (step (KeyDown ligature_st) fourTyped) = Some grid ∧
          length grid = MAX_TRIES ∧
          ∀ row, row ∈ grid → length row = WORD_LENGTH.
Proof.
  apply renderGameField_total, reach_step, reachable_run, reach_mount.
Defined.

(** X7.  While the game is on, the row being typed shows the first five code
    units of the in-progress guess on white tiles, and the rows after it are
    empty white tiles: nothing is coloured before Enter. *)
Theorem unsubmitted_rows_white
    (s : AppState) (grid : list (list Tile)) (i j : nat) :
  reachable s →
  isGameOver s = false →
  renderGameField s = Some grid →
  (currentTry s ≤ i < MAX_TRIES)%nat →
  (j < WORD_LENGTH)%nat →
  tileAt grid i j =
    Some (mkTile (if decide (i = currentTry s)
                  then default [] (at_index (currentGuess s) j) else [])
                 white).
Proof.
  intros Hs Hplay Hgrid [Hi Hi6] Hj.
  pose proof (reachable_gameInv s Hs) as Hinv.
  assert (Hst : (i <? currentTry s)%nat
                || (isGameOver s && (i =? currentTry s)%nat) = false).
  { rewrite Hplay. destruct (Nat.ltb_spec i (currentTry s)); [lia | done]. }
  case_decide as Hit.
  - subst i. rewrite (render_tile s grid _ j _ Hgrid (fullGrid_current s) Hj).
    by rewrite Hst.
  - assert (Hrow : fullGrid s !! i = Some (Some [])).
    { rewrite fullGrid_other by done. apply (inv_future s Hinv); [lia | done]. }
    rewrite (render_tile s grid i j _ Hgrid Hrow Hj). rewrite Hst.
    by destruct j.
Qed.

Lemma unsubmitted_rows_white_witness :
  ∃ grid, renderGameField fourTyped = Some grid ∧
          tileAt grid 0 1 = Some (mkTile (lit "B") white) ∧
          tileAt grid 3 1 = Some (mkTile [] white).
Proof.
  assert (Hs : reachable fourTyped) by apply reachable_run, reach_mount.
  destruct (render_is_Some fourTyped (reachable_gameInv _ Hs)) as [grid Hgrid].
  exists grid. split; [exact Hgrid|]. split.
  - apply (unsubmitted_rows_white fourTyped grid 0 1 Hs eq_refl Hgrid);
      vm_compute; lia.
  - apply (unsubmitted_rows_white fourTyped grid 3 1 Hs eq_refl Hgrid);
      vm_compute; lia.
Defined.

(** ** Feedback on submitted rows *)

Section Feedback.

Implicit Types (s : AppState) (g w : jsstring) (c : codeUnit)
  (grid : list (list Tile)).

Lemma includes_singleton w c : includes w [c] = true ↔ c ∈ w.
Proof.
  rewrite includes_infix. split.
  - intros (pre & post & ->). rewrite !elem_of_app. right; left. by left.
  - intros (pre & post & ->)%list_elem_of_split. by exists pre, post.
Qed.

(** The status of a capital letter against a word that upper-casing leaves
    alone, in terms of the word's own letters. *)
Lemma letter_status c j w :
  isUpperLetter c = true → toUpperCase w = w →
  let st := calculateTileStatus [c] j w in
  st ≠ white ∧
  (st = green ↔ w !! j = Some c) ∧
  (st = yellow ↔ w !! j ≠ Some c ∧ c ∈ w) ∧
  (st = grey ↔ c ∉ w).
Proof.
  intros Hc Hw. cbv zeta. unfold calculateTileStatus.
  assert (Hup : toUpperCase [c] = [c])
    by (apply toUpperCase_lettersOnly; by constructor).
  rewrite Hup, Hw. unfold at_index.
  destruct (w !! j) as [d|] eqn:Hd; cbn [fmap option_fmap option_map strictEq].
  - case_bool_decide as Heq.
    + injection Heq as <-.
      assert (Hin : c ∈ w) by (by eapply list_elem_of_lookup_2).
      intuition (done || congruence).
    + assert (Hne : Some d ≠ Some c) by congruence.
      destruct (includes w [c]) eqn:Hin.
      * apply includes_singleton in Hin. intuition (done || congruence).
      * assert (Hnot : c ∉ w)
          by (intros H; apply includes_singleton in H; congruence).
        intuition (done || congruence).
  - destruct (includes w [c]) eqn:Hin.
    + apply includes_singleton in Hin. intuition (done || congruence).
    + assert (Hnot : c ∉ w)
        by (intros H; apply includes_singleton in H; congruence).
      intuition (done || congruence).
Qed.

(** A row whose colours are shown: a submitted row, which holds five capital
    letters, and the board shows each with its status. *)
Lemma revealed_row s grid i j :
  reachable s → renderGameField s = Some grid →
  (i < currentTry s)%nat ∨ (isGameOver s = true ∧ i = currentTry s) →
  (j < 5)%nat →
  ∃ g c, guessedWords s !! i = Some (Some g) ∧ len g = 5%nat ∧
         g !! j = Some c ∧ isUpperLetter c = true ∧
         tileAt grid i j =
           Some (mkTile [c] (calculateTileStatus [c] j (word s))).
Proof.
  intros Hs Hgrid Hi Hj.
  pose proof (reachable_gameInv s Hs) as Hinv.
  pose proof (reachable_boardInv s Hs) as Hb.
  assert (Hrow : ∃ g, guessedWords s !! i = Some (Some g) ∧
                      fullGrid s !! i = Some (Some g) ∧
                      len g = 5%nat ∧ lettersOnly g).
  { destruct Hi as [Hlt | [Hover ->]].
    - destruct (inv_past s Hinv i Hlt) as (g & Hg & _). exists g.
      pose proof (inv_try s Hinv).
      rewrite fullGrid_other by (done || lia).
      destruct (b_past s Hb i g Hlt Hg). done.
    - destruct (inv_over s Hinv Hover) as (_ & Hg & _).
      rewrite (toUpperCase_lettersOnly _ (b_guess s Hb)) in Hg.
      exists (currentGuess s). rewrite fullGrid_current.
      repeat split; try done; [by apply (b_over s Hb) | apply Hb]. }
  destruct Hrow as (g & Hg & Hfull & Hlen & Hletters).
  destruct (lookup_lt_is_Some_2 g j) as [c Hc]; [unfold len in Hlen; lia|].
  exists g, c. repeat split; try done.
  - by eapply Forall_lookup_1 in Hletters.
  - rewrite (render_tile s grid i j g Hgrid Hfull Hj).
    unfold at_index. rewrite Hc. cbn [fmap option_fmap option_map default].
    destruct Hi as [Hlt | [Hover ->]].
    + apply Nat.ltb_lt in Hlt. by rewrite Hlt.
    + by rewrite Hover, Nat.eqb_refl, orb_true_r.
Qed.

(** A game is won only on the typed word itself. *)
Lemma won_state s :
  reachable s → gameStatus s = Some (lit "You Win!") →
  isGameOver s = true ∧ currentGuess s = word s ∧
  len (word s) = 5%nat ∧ lettersOnly (word s).
Proof.
  intros Hs Hwin. unfold gameStatus in Hwin.
  destruct (isGameOver s) eqn:Hover; [|done].
  destruct (arrayIncludes _ _) eqn:Hinc; [|done].
  pose proof (reachable_gameInv s Hs) as Hinv.
  pose proof (reachable_boardInv s Hs) as Hb.
  destruct (inv_over s Hinv Hover) as (Hne & Hrow & Hcase).
  rewrite (toUpperCase_lettersOnly _ (b_guess s Hb)) in Hrow, Hcase.
  assert (Heq : currentGuess s = word s).
  { destruct Hcase as [Heq | [H5 Hlose]]; [done|].
    apply arrayIncludes_lookup in Hinc as [i Hi].
    assert (Hi6 : (i < 6)%nat)
      by (rewrite <- (inv_length s Hinv); by eapply lookup_lt_Some).
    destruct (decide (i = currentTry s)) as [->|Hi5]; [congruence|].
    destruct (inv_past s Hinv i) as (g & Hg & Hgne); [lia | congruence]. }
  split; [done|]. split; [done|]. rewrite <- Heq.
  split; [by apply (b_over s Hb) | apply Hb].
Qed.

(** A game is lost only on the sixth row, with six wrong words on the
    board. *)
Lemma lost_state s :
  reachable s → gameStatus s = Some (lit "You Lost!") →
  isGameOver s = true ∧ currentTry s = 5%nat ∧
  ∀ i, (i < 6)%nat →
    ∃ g, guessedWords s !! i = Some (Some g) ∧ len g = 5%nat ∧
         lettersOnly g ∧ g ≠ word s.
Proof.
  intros Hs Hlost. unfold gameStatus in Hlost.
  destruct (isGameOver s) eqn:Hover; [|done].
  destruct (arrayIncludes _ _) eqn:Hinc; [done|].
  pose proof (reachable_gameInv s Hs) as Hinv.
  pose proof (reachable_boardInv s Hs) as Hb.
  destruct (inv_over s Hinv Hover) as (Hne & Hrow & Hcase).
  rewrite (toUpperCase_lettersOnly _ (b_guess s Hb)) in Hrow, Hcase.
  destruct Hcase as [Heq | [H5 Hlose]].
  { assert (arrayIncludes (guessedWords s) (word s) = true); [|congruence].
    apply arrayIncludes_lookup. exists (currentTry s). congruence. }
  split; [done|]. split; [done|]. intros i Hi.
  destruct (decide (i = 5%nat)) as [->|Hi5].
  - exists (currentGuess s). rewrite H5 in Hrow.
    repeat split; try done; [by apply (b_over s Hb) | apply Hb].
  - destruct (inv_past s Hinv i) as (g & Hg & Hgne); [lia|].
    exists g. destruct (b_past s Hb i g) as [Hlen Hlet]; [lia | done | done].
Qed.

End Feedback.



(** X9.  The message "You Win!" is shown only when the secret word is five
    capital letters [A]..[Z] and is what was typed; the row at the attempt
    index then reads the secret word on five green tiles. *)
Theorem win_shows_green_row (s : AppState) (grid : list (list Tile)) :
  reachable s →
  gameStatus s = Some (lit "You Win!") →
  renderGameField s = Some grid →
  len (word s) = 5%nat ∧ lettersOnly (word s) ∧
  currentGuess s = word s ∧
  grid !! currentTry s = Some (map (λ c, mkTile [c] green) (word s)).
Proof.
  intros Hs Hwin Hgrid.
  destruct (won_state s Hs Hwin) as (Hover & Heq & Hlen & Hlet).
  repeat split; try done.
  pose proof (reachable_gameInv s Hs) as Hinv.
  destruct (render_lookup s grid (currentTry s) _ Hgrid (fullGrid_current s))
    as (row & Hrow & Hrr).
  rewrite Hrow. f_equal. apply list_eq_same_length with 5%nat.
  - by rewrite length_map.
  - apply (renderRow_tile s _ _ row 0 Hrr). lia.
  - intros j x y Hj Hx Hy.
    destruct (revealed_row s grid (currentTry s) j Hs Hgrid) as
      (g & c & Hg & _ & Hc & Hup & Htile); [by right | done |].
    unfold tileAt in Htile. rewrite Hrow in Htile.
    cbn [mbind option_bind] in Htile.
    destruct (inv_over s Hinv Hover) as (_ & Hrow' & _).
    rewrite (toUpperCase_lettersOnly _ (b_guess s (reachable_boardInv s Hs))),
      Heq in Hrow'.
    assert (g = word s) as -> by congruence.
    rewrite list_lookup_fmap, Hc in Hy. cbn in Hy.
    assert (Hgreen : calculateTileStatus [c] j (word s) = green)
      by (by apply (letter_status c j (word s) Hup (inv_word s Hinv))).
    congruence.
Qed.

Lemma win_shows_green_row_witness :
  ∃ grid, renderGameField wonAtFirstTry = Some grid ∧
          grid !! 0%nat = Some (map (λ c, mkTile [c] green) (lit "CRANE")).
Proof.
  assert (Hs : reachable wonAtFirstTry) by apply reachable_run, reach_mount.
  destruct (render_is_Some wonAtFirstTry (reachable_gameInv _ Hs)) as [grid Hgrid].
  exists grid. split; [exact Hgrid|].
  apply (win_shows_green_row wonAtFirstTry grid Hs eq_refl Hgrid).
Defined.

(** X10.  The message "You Lost!" is shown only at attempt index 5, with all
    six rows holding five capital letters each and none of them the secret
    word. *)
Theorem loss_after_six_wrong_rows (s : AppState) :
  reachable s →
  gameStatus s = Some (lit "You Lost!") →
  currentTry s = 5%nat ∧
  ∀ i, (i < MAX_TRIES)%nat →
    ∃ g, guessedWords s !! i = Some (Some g) ∧ len g = WORD_LENGTH ∧
         lettersOnly g ∧ g ≠ word s.
Proof. intros Hs Hlost. by destruct (lost_state s Hs Hlost) as (_ & H5 & Hrows). Qed.

Lemma loss_after_six_wrong_rows_witness :
  currentTry lostGame = 5%nat ∧
  guessedWords lostGame !! 2%nat = Some (Some (lit "REACT")).
Proof.
  assert (Hs : reachable lostGame) by apply reachable_run, reach_mount.
  destruct (loss_after_six_wrong_rows lostGame Hs eq_refl) as [H5 Hrows].
  split; [exact H5 | reflexivity].
Defined.

(** ** What the events leave alone *)

Lemma rows_frozen_step (e : Event) (s : AppState) (i : nat) :
  gameInv s → e ≠ ClickReset → (i < currentTry s)%nat →
  guessedWords (step e s) !! i = guessedWords s !! i.
Proof.
  intros Hinv He Hi. unfold step, dispatch.
  destruct (word s); [done|].
  destruct e as [key| |]; [| |done].
  - destruct (isGameOver s); [done|].
    pose proof (inv_length s Hinv) as Hl. pose proof (inv_try s Hinv) as Ht.
    unfold handleKeyPress, handleSubmitGuess.
    repeat match goal with
    | |- context [if ?b then _ else _] => destruct b
    end; cbn; try done; apply arraySet_lookup_ne; lia.
  - by destruct (isGameOver s).
Qed.

(** X11.  Once a guess has been submitted, its row is never written again:
    whatever keys are pressed afterwards, the rows below the attempt index
    stay as they are, until Reset. *)
Theorem submitted_rows_frozen (es : list Event) (s : AppState) (i : nat) :
  reachable s →
  Forall (λ e, e ≠ ClickReset) es →
  (i < currentTry s)%nat →
  guessedWords (run es s) !! i = guessedWords s !! i ∧
  (currentTry s ≤ currentTry (run es s))%nat.
Proof.
  intros Hs Hes. revert s Hs.
  induction Hes as [|e es He _ IH]; intros s Hs Hi; [done|].
  rewrite run_cons.
  pose proof (step_currentTry_mono e s He) as Hmono.
  destruct (IH (step e s)) as [Hrow Htry]; [by constructor | lia |].
  split; [|lia].
  rewrite Hrow. apply rows_frozen_step; [by apply reachable_gameInv | done..].
Qed.

Lemma submitted_rows_frozen_witness :
  guessedWords
    (run (typeKeys (lit "abc") ++ [Backspace; Enter] ++ playGuess (lit "caret"))
         afterOneGuess) !! 0%nat
  = Some (Some (lit "TRACE")).
Proof.
  assert (Hs : reachable afterOneGuess) by apply reachable_run, reach_mount.
  assert (Hi : (0 < currentTry afterOneGuess)%nat) by (vm_compute; lia).
  eapply eq_trans; [eapply (submitted_rows_frozen _ afterOneGuess 0 Hs)|].
  - repeat constructor; discriminate.
  - exact Hi.
  - reflexivity.
Defined.

Lemma game_over_step (e : Event) (s : AppState) :
  isGameOver s = true → e ≠ ClickReset → dispatch e s = (s, []).
Proof.
  intros Hover He. unfold dispatch. destruct (word s); [done|].
  destruct e; [| |done]; by rewrite Hover.
Qed.

(** X12.  A finished game is terminal: in a reachable state whose game-over
    flag is set, key presses and "Reveal Word" change nothing and show no
    alert, however many there are, and Reset then starts a fresh game on the
    same secret word. *)
Theorem game_over_terminal (es : list Event) (s : AppState) :
  reachable s →
  isGameOver s = true →
  Forall (λ e, e ≠ ClickReset) es →
  Forall (λ e, dispatch e s = (s, [])) es ∧
  run es s = s ∧
  run (es ++ [ClickReset]) s = freshGame (word s).
Proof.
  intros Hs Hover Hes.
  assert (Hrun : run es s = s).
  { induction Hes as [|e es He _ IH]; [done|].
    rewrite run_cons. unfold step. rewrite game_over_step by done. exact IH. }
  split; [|split; [done|]].
  - eapply Forall_impl; [exact Hes|]. intros e He. by apply game_over_step.
  - unfold run in *. rewrite foldl_app, Hrun. cbn [foldl].
    destruct (inv_over s (reachable_gameInv s Hs) Hover) as (Hne & _).
    unfold step, dispatch. destruct (word s) eqn:Hw; [done|].
    rewrite <- Hw. reflexivity.
Qed.

Lemma game_over_terminal_witness :
  run (typeKeys (lit "abc") ++ [Enter; ClickReveal]) lostGame = lostGame ∧
  run (typeKeys (lit "abc") ++ [Enter; ClickReveal] ++ [ClickReset]) lostGame
    = freshGame (lit "CRANE").
Proof.
  assert (Hs : reachable lostGame) by apply reachable_run, reach_mount.
  assert (Hes : Forall (λ e, e ≠ ClickReset)
                  (typeKeys (lit "abc") ++ [Enter; ClickReveal]))
    by (repeat constructor; discriminate).
  destruct (game_over_terminal _ lostGame Hs eq_refl Hes) as (_ & Hrun & Hreset).
  split; [exact Hrun|]. rewrite <- app_assoc in Hreset. exact Hreset.
Defined.

(** X13.  The fetch leaves the word empty exactly when the solution it
    delivered is the empty string; the application then stays on its loading
    text, and no event changes its state or shows an alert. *)
Theorem loading_ignores_events (response : option (list N)) (es : list Event) :
  (word (mount response) = [] ↔ response = Some []) ∧
  run es (mount (Some [])) = initialState ∧
  Forall (λ e, dispatch e initialState = (initialState, [])) es.
Proof.
  split; [|split].
  - destruct response as [solution|]; cbn; split; try done.
    + intros H. by apply toUpperCase_nil_inv in H as ->.
    + by intros [= ->].
  - change (mount (Some [])) with initialState.
    induction es as [|e es IH]; [done|]. by rewrite run_cons.
  - apply Forall_forall. by intros e _.
Qed.


(** ** Playing a whole game *)

Section PlayThrough.

Implicit Types (s : AppState) (g w : jsstring) (ws : list (list N)).

Lemma run_app (es1 es2 : list Event) s :
  run (es1 ++ es2) s = run es2 (run es1 s).
Proof. apply foldl_app. Qed.

Lemma mount_fresh (response : option (list N)) :
  mount response = freshGame (word (mount response)).
Proof. by destruct response. Qed.

Lemma arraySet_next (rows : list (option (list N))) n k v x :
  length rows = n →
  arraySet (rows ++ replicate (S k) x) n v = (rows ++ [Some v]) ++ replicate k x.
Proof.
  intros <-. unfold arraySet. rewrite length_app, length_replicate.
  destruct (Nat.ltb_spec (length rows) (length rows + S k)); [|lia].
  rewrite insert_app_r_alt by lia. rewrite Nat.sub_diag. cbn.
  by rewrite <- app_assoc.
Qed.

(** Typing five letters into an empty row and pressing Enter submits their
    capitals. *)
Lemma playGuess_run g s :
  word s ≠ [] → isGameOver s = false → currentGuess s = [] →
  letterKeys g → len g = 5%nat →
  run (playGuess g) s =
    fst (handleSubmitGuess (setCurrentGuess (λ _, toUpperCase g) s)) ∧
  dispatch Enter (run (typeKeys g) s) =
    handleSubmitGuess (setCurrentGuess (λ _, toUpperCase g) s).
Proof.
  intros Hw Hplay Hempty Hkeys Hlen.
  destruct (toUpperCase_letterKeys g Hkeys) as [_ Hlen'].
  assert (Htyped : run (typeKeys g) s = setCurrentGuess (λ _, toUpperCase g) s).
  { rewrite typeKeys_run; [|done..|rewrite Hempty; cbn; lia].
    apply setCurrentGuess_ext. rewrite Hempty. cbn [app].
    apply take_ge. unfold len in *. rewrite Hlen', Hlen. done. }
  unfold playGuess. rewrite run_app, Htyped.
  split; [|by apply step_Enter].
  change (run [Enter] ?s') with (fst (dispatch Enter s')).
  by rewrite step_Enter.
Qed.

Lemma submit_typed g s :
  letterKeys g → len g = 5%nat →
  len (currentGuess (setCurrentGuess (λ _, toUpperCase g) s)) = 5%nat ∧
  toUpperCase (currentGuess (setCurrentGuess (λ _, toUpperCase g) s))
    = toUpperCase g.
Proof.
  intros Hkeys Hlen. destruct (toUpperCase_letterKeys g Hkeys) as [_ Hlen'].
  cbn [setCurrentGuess currentGuess]. rewrite toUpperCase_idempotent.
  split; [congruence | done].
Qed.

Lemma wrong_guess_run w ws g :
  w ≠ [] → (length ws < 5)%nat → wrongGuess w g →
  run (playGuess g) (afterWrong w ws) = afterWrong w (ws ++ [g]).
Proof.
  intros Hw Hn (Hlen & Hkeys & Hwrong).
  destruct (playGuess_run g (afterWrong w ws)) as [-> _]; try done.
  destruct (submit_typed g (afterWrong w ws) Hkeys Hlen) as [Hlen5 Hup].
  rewrite (handleSubmitGuess_valid _ Hlen5). cbv zeta. rewrite Hup.
  simpl_state.
  rewrite bool_decide_eq_false_2 by done.
  destruct (Nat.leb_spec 5 (length ws)); [lia|].
  simpl_state. rewrite length_app. cbn [length].
  replace (6 - length ws)%nat with (S (6 - (length ws + 1))) by lia.
  rewrite arraySet_next by (by rewrite length_fmap).
  by rewrite fmap_app.
Qed.

Lemma wrong_guesses_run w ws :
  w ≠ [] → (length ws ≤ 5)%nat → Forall (wrongGuess w) ws →
  run (playAll ws) (freshGame w) = afterWrong w ws.
Proof.
  intros Hw. induction ws as [|g ws IH] using rev_ind; intros Hn Hws;
    [reflexivity|].
  rewrite length_app in Hn. cbn in Hn.
  apply Forall_app in Hws as [Hws Hg]. apply Forall_inv in Hg.
  unfold playAll. rewrite flat_map_app. cbn [flat_map]. rewrite app_nil_r.
  rewrite run_app. fold (playAll ws). rewrite IH by (done || lia).
  apply wrong_guess_run; [done | lia | exact Hg].
Qed.

Lemma rows_exclude w ws :
  toUpperCase w = w → Forall (wrongGuess w) ws →
  arrayIncludes (Some ∘ toUpperCase <$> ws) w = false.
Proof.
  intros Hw Hws. destruct (arrayIncludes _ _) eqn:Hinc; [|done].
  apply arrayIncludes_lookup in Hinc as [i Hi].
  apply list_elem_of_lookup_2, list_elem_of_fmap in Hi as (g & Heq & Hg).
  eapply Forall_forall in Hws as (_ & _ & Hne); [|exact Hg].
  cbn in Heq. congruence.
Qed.

End PlayThrough.

(** X15.  After the fetch has delivered a non-empty word, playing up to
    five wrong five-letter guesses and then five letters that spell the word
    (in either case) wins: the rows hold the capitals of the guesses in order,
    the word sits in the row of the last guess, the attempt index stays on
    that row, the later rows are empty, and the message is "You Win!". *)
Theorem play_to_win
    (response : option (list N)) (ws : list (list N)) (g : list N) :
  let w := word (mount response) in
  w ≠ [] →
  (length ws ≤ 5)%nat →
  Forall (wrongGuess w) ws →
  len g = 5%nat →
  letterKeys g →
  toUpperCase g = w →
  let s := run (playAll ws ++ playGuess g) (mount response) in
  guessedWords s =
    (Some ∘ toUpperCase <$> ws) ++ Some w :: replicate (5 - length ws) (Some []) ∧
  currentTry s = length ws ∧
  isGameOver s = true ∧
  currentGuess s = w ∧
  gameStatus s = Some (lit "You Win!").
Proof.
  intros w Hw Hn Hws Hlen Hkeys Hright s.
  assert (Hfix : toUpperCase w = w)
    by apply (inv_word _ (reachable_gameInv _ (reach_mount response))).
  assert (Hs : s = mkApp w
    ((Some ∘ toUpperCase <$> ws) ++ Some w :: replicate (5 - length ws) (Some []))
    (length ws) true w).
  { unfold s. rewrite run_app, mount_fresh. fold w.
    rewrite wrong_guesses_run by done.
    destruct (playGuess_run g (afterWrong w ws)) as [-> _]; try done.
    destruct (submit_typed g (afterWrong w ws) Hkeys Hlen) as [Hlen5 Hup].
    rewrite (handleSubmitGuess_valid _ Hlen5). cbv zeta. rewrite Hup, Hright.
    unfold setCurrentGuess, afterWrong.
    cbn [word guessedWords currentTry isGameOver currentGuess].
    rewrite bool_decide_eq_true_2 by done.
    unfold setIsGameOver, setGuessedWords.
    cbn [fst word guessedWords currentTry isGameOver currentGuess].
    replace (6 - length ws)%nat with (S (5 - length ws)) by lia.
    rewrite arraySet_next by (by rewrite length_fmap).
    by rewrite <- app_assoc. }
  rewrite Hs. cbn [guessedWords currentTry isGameOver currentGuess].
  repeat split. unfold gameStatus. cbn [isGameOver guessedWords word].
  assert (Hinc : arrayIncludes
    ((Some ∘ toUpperCase <$> ws) ++ Some w :: replicate (5 - length ws) (Some []))
    w = true).
  { apply arrayIncludes_lookup. exists (length ws).
    apply list_lookup_middle. by rewrite length_fmap. }
  by rewrite Hinc.
Qed.

Lemma play_to_win_witness :
  gameStatus (run (playAll [lit "trace"; lit "React"] ++ playGuess (lit "crane"))
                  (mount (Some (lit "crane"))))
    = Some (lit "You Win!").
Proof.
  apply (play_to_win (Some (lit "crane")) [lit "trace"; lit "React"] (lit "crane")).
  - discriminate.
  - cbn; lia.
  - repeat constructor; discriminate.
  - reflexivity.
  - repeat constructor.
  - reflexivity.
Defined.

(** X16.  After the fetch has delivered a non-empty word, six wrong
    five-letter guesses in a row lose: the sixth Enter shows the alert with
    the secret word, the six rows hold the capitals of the guesses in order,
    the attempt index is 5, and the message is "You Lost!". *)
Theorem six_wrong_guesses_lose
    (response : option (list N)) (ws : list (list N)) (g : list N) :
  let w := word (mount response) in
  w ≠ [] →
  length ws = 5%nat →
  Forall (wrongGuess w) (ws ++ [g]) →
  let s := run (playAll (ws ++ [g])) (mount response) in
  snd (dispatch Enter (run (playAll ws ++ typeKeys g) (mount response)))
    = [lit "Game Over! The word was: " ++ w] ∧
  guessedWords s = Some ∘ toUpperCase <$> (ws ++ [g]) ∧
  currentTry s = 5%nat ∧
  isGameOver s = true ∧
  gameStatus s = Some (lit "You Lost!").
Proof.
  intros w Hw Hn Hall s.
  assert (Hfix : toUpperCase w = w)
    by apply (inv_word _ (reachable_gameInv _ (reach_mount response))).
  pose proof Hall as Hall'.
  apply Forall_app in Hall' as [Hws Hg]. apply Forall_inv in Hg.
  destruct Hg as (Hlen & Hkeys & Hwrong).
  destruct (playGuess_run g (afterWrong w ws)) as [Hrun Henter]; try done.
  destruct (submit_typed g (afterWrong w ws) Hkeys Hlen) as [Hlen5 Hup].
  assert (Hsub : handleSubmitGuess
                   (setCurrentGuess (λ _, toUpperCase g) (afterWrong w ws)) =
    (mkApp w (Some ∘ toUpperCase <$> (ws ++ [g])) 5 true (toUpperCase g),
     [lit "Game Over! The word was: " ++ w])).
  { rewrite (handleSubmitGuess_valid _ Hlen5). cbv zeta. rewrite Hup.
    unfold setCurrentGuess, afterWrong.
    cbn [word guessedWords currentTry isGameOver currentGuess].
    rewrite bool_decide_eq_false_2 by done. rewrite Hn. cbn [Nat.leb].
    unfold setIsGameOver, setGuessedWords.
    cbn [word guessedWords currentTry isGameOver currentGuess].
    change (6 - 5)%nat with 1%nat. rewrite <- Hn at 1.
    rewrite (arraySet_next _ (length ws) 0) by (by rewrite length_fmap).
    cbn [replicate]. by rewrite app_nil_r, fmap_app. }
  assert (Hs : s = mkApp w (Some ∘ toUpperCase <$> (ws ++ [g])) 5 true
                         (toUpperCase g)).
  { unfold s, playAll. rewrite flat_map_app. cbn [flat_map]. rewrite app_nil_r.
    rewrite run_app, mount_fresh. fold (playAll ws). fold w.
    rewrite wrong_guesses_run by (done || lia). by rewrite Hrun, Hsub. }
  split.
  - rewrite run_app, mount_fresh. fold w.
    rewrite wrong_guesses_run by (done || lia). by rewrite Henter, Hsub.
  - rewrite Hs. cbn [guessedWords currentTry isGameOver].
    repeat split. unfold gameStatus. cbn [isGameOver guessedWords word].
    by rewrite rows_exclude.
Qed.

Lemma six_wrong_guesses_lose_witness :
  gameStatus lostGame = Some (lit "You Lost!") ∧ currentTry lostGame = 5%nat.
Proof.
  assert (Hall : Forall (wrongGuess (word (mount (Some (lit "crane")))))
    ([lit "trace"; lit "Crate"; lit "REACT"; lit "caret"; lit "carte"]
       ++ [lit "recta"])).
  { repeat constructor; discriminate. }
  assert (Hw : word (mount (Some (lit "crane"))) ≠ []) by discriminate.
  destruct (six_wrong_guesses_lose (Some (lit "crane"))
              [lit "trace"; lit "Crate"; lit "REACT"; lit "caret"; lit "carte"]
              (lit "recta") Hw eq_refl Hall)
    as (_ & _ & Htry & _ & Hlost).
  split; [exact Hlost | exact Htry].
Defined.

(** ** Ordinary keyboards, and what a tile shows *)

Lemma standardEvent_plain (e : Event) : standardEvent e → plainEvent e.
Proof.
  destruct e as [key| |]; [|done..]. cbn.
  intros [(c & -> & Hc) | [-> | [-> | ->]]]; try (intros H; by vm_compute in H).
  intros _. destruct (upperCodeUnit_ascii c Hc) as (C & HC & _).
  unfold toUpperCase. cbn [flat_map]. by rewrite HC.
Qed.

(** X17.  In a session made of letter keys, Enter, Backspace, Delete and the
    two buttons, whatever the fetch delivered, the in-progress guess never
    has more than five code units, all of them capital letters. *)
Theorem currentGuess_bounded_standard_keys
    (response : option (list N)) (es : list Event) :
  Forall standardEvent es →
  (len (currentGuess (run es (mount response))) ≤ WORD_LENGTH)%nat ∧
  lettersOnly (currentGuess (run es (mount response))).
Proof.
  intros Hes. apply (guessOK_run response es).
  eapply Forall_impl; [exact Hes | apply standardEvent_plain].
Qed.

Lemma currentGuess_bounded_standard_keys_witness :
  (len (currentGuess (run (typeKeys (lit "Crowned") ++ [Backspace])
                          (mount (Some (lit "crane"))))) ≤ WORD_LENGTH)%nat.
Proof.
  apply (currentGuess_bounded_standard_keys (Some (lit "crane"))
           (typeKeys (lit "Crowned") ++ [Backspace])).
  apply Forall_app. split.
  - repeat (apply Forall_cons_2;
              [left; eexists; split; reflexivity|]). apply Forall_nil_2.
  - apply Forall_cons_2; [|apply Forall_nil_2]. right; right; left. reflexivity.
Defined.

Lemma fullGrid_letters (s : AppState) (i : nat) (g : list N) :
  reachable s → fullGrid s !! i = Some (Some g) → lettersOnly g.
Proof.
  intros Hs Hg. pose proof (reachable_gameInv s Hs) as Hinv.
  pose proof (reachable_boardInv s Hs) as Hb.
  assert (Hi : (i < 6)%nat)
    by (rewrite <- (fullGrid_length s Hinv); by eapply lookup_lt_Some).
  destruct (lt_eq_lt_dec i (currentTry s)) as [[Hlt | ->] | Hgt].
  - rewrite fullGrid_other in Hg by (done || lia).
    by apply (b_past s Hb i g Hlt).
  - rewrite fullGrid_current in Hg. injection Hg as <-. apply Hb.
  - rewrite fullGrid_other in Hg by (done || lia).
    rewrite (inv_future s Hinv i Hgt Hi) in Hg. injection Hg as <-. constructor.
Qed.

(** X18.  On the board of a reachable state every tile holds either no
    letter or one capital letter, so the upper-casing [Tile] applies before
    display changes nothing: a tile shows the letter it was given. *)
Theorem tile_shows_its_letter
    (s : AppState) (grid : list (list Tile)) (i j : nat) (t : Tile) :
  reachable s →
  renderGameField s = Some grid →
  tileAt grid i j = Some t →
  (tileLetter t = [] ∨ ∃ c, tileLetter t = [c] ∧ isUpperLetter c = true) ∧
  tileText t = tileLetter t.
Proof.
  intros Hs Hgrid Ht. pose proof (reachable_gameInv s Hs) as Hinv.
  unfold tileAt in Ht. destruct (grid !! i) as [row|] eqn:Hrow; [|done].
  cbn [mbind option_bind] in Ht.
  assert (Hi : (i < 6)%nat).
  { unfold renderGameField in Hgrid. apply length_mapM in Hgrid.
    rewrite length_imap, (fullGrid_length s Hinv) in Hgrid.
    rewrite Hgrid. by eapply lookup_lt_Some. }
  destruct (fullGrid_rows s i Hinv Hi) as [g Hg].
  destruct (render_lookup s grid i _ Hgrid Hg) as (row' & Hrow' & Hrr).
  assert (row' = row) as -> by congruence.
  assert (Hj : (j < 5)%nat).
  { destruct (renderRow_tile s i g row 0 Hrr) as [Hlen _]; [lia|].
    rewrite <- Hlen. by eapply lookup_lt_Some. }
  destruct (renderRow_tile s i g row j Hrr Hj) as [_ Htile].
  rewrite Htile in Ht. injection Ht as <-. unfold tileText. cbn [tileLetter].
  pose proof (fullGrid_letters s i g Hs Hg) as Hletters.
  unfold at_index. destruct (g !! j) as [c|] eqn:Hc;
    cbn [fmap option_fmap option_map default].
  - assert (Hup : isUpperLetter c = true) by (by eapply Forall_lookup_1 in Hletters).
    split; [right; by exists c|].
    apply toUpperCase_lettersOnly. by constructor.
  - split; [by left | done].
Qed.

Lemma tile_shows_its_letter_witness :
  ∃ grid t, renderGameField afterOneGuess = Some grid ∧
            tileAt grid 0 0 = Some t ∧ tileText t = tileLetter t.
Proof.
  assert (Hs : reachable afterOneGuess) by apply reachable_run, reach_mount.
  destruct (render_is_Some afterOneGuess (reachable_gameInv _ Hs)) as [grid Hgrid].
  assert (Hj : (0 < 5)%nat) by lia.
  pose proof (render_tile afterOneGuess grid 0 0 (lit "TRACE") Hgrid eq_refl Hj)
    as Ht.
  eexists grid, _. split; [exact Hgrid|]. split; [exact Ht|].
  apply (tile_shows_its_letter afterOneGuess grid 0 0 _ Hs Hgrid Ht).
Defined.
